(** * The batch-processing engine of xollm (examples/batch-processing/main.go)

    A shallow embedding of the job source, the worker pool, the dispatcher,
    the result collector and the statistics of [BatchProcessor], and the
    properties of the engine proved over it.

    Goroutines are modelled by an interleaving semantics: a [Run] records
    where every goroutine of one [ProcessJobs] call stands, and [step]
    executes one atomic action of the goroutine an [Event] names.  Every
    statement about "a run" quantifies over all event sequences, that is
    over all schedules, all cancellation instants and all clock readings. *)

From Stdlib Require Import Strings.Ascii.
From stdpp Require Import base numbers option list strings gmap pretty.

Local Open Scope Z_scope.

(** ** Go values *)

(** Go's [error] interface, by the constructors the engine meets:
    [errors.New], the [%w] wrapper of [fmt.Errorf], and the two context
    errors. *)
Inductive error : Type :=
| errorString (s : string)
| wrapError (msg : string) (err : error)
| Canceled
| DeadlineExceeded.

Definition Error (e : error) : string :=
  match e with
  | errorString s => s
  | wrapError msg _ => msg
  | Canceled => "context canceled"
  | DeadlineExceeded => "context deadline exceeded"
  end.

(** [fmt.Errorf(prefix + "%w", err)] *)
Definition Errorf_w (prefix : string) (err : error) : error :=
  wrapError (prefix +:+ Error err) err.

Global Instance error_eq_dec : EqDecision error.
Proof. solve_decision. Defined.

(** [int] and [time.Duration] are 64-bit signed integers. *)
Definition MaxInt64 : Z := 2 ^ 63 - 1.
Definition MinInt64 : Z := - 2 ^ 63.

Definition wrap64 (z : Z) : Z := (z + 2 ^ 63) `mod` 2 ^ 64 - 2 ^ 63.

Lemma wrap64_id z : MinInt64 ≤ z ≤ MaxInt64 → wrap64 z = z.
Proof.
  unfold wrap64, MinInt64, MaxInt64. intros ?.
  rewrite Z.mod_small; lia.
Qed.

Lemma wrap64_range z : MinInt64 ≤ wrap64 z ≤ MaxInt64.
Proof.
  unfold wrap64, MinInt64, MaxInt64.
  pose proof (Z.mod_pos_bound (z + 2 ^ 63) (2 ^ 64)). lia.
Qed.

(** ** Data model (main.go, lines 19-53) *)

(** [map[string]interface{}]: [None] is the nil map; the values are opaque
    to the engine and are kept as text. *)
Definition Metadata : Type := option (gmap string string).

Record BatchJob : Type := mkJob {
  ID : string;
  Prompt : string;
  JobMetadata : Metadata
}.

Record BatchResult : Type := mkResult {
  Job : BatchJob;
  Response : string;
  Duration : Z;
  ResultError : option error;
  Worker : Z
}.

Record BatchStatistics : Type := mkStats {
  TotalJobs : Z;
  CompletedJobs : Z;
  FailedJobs : Z;
  TotalDuration : Z;
  AverageDuration : Z;
  WorkerCount : Z;
  StartTime : Z;
  EndTime : Z
}.

(** The zero value of the struct. *)
Definition zeroStats : BatchStatistics := mkStats 0 0 0 0 0 0 0 0.

(** ** Job source (main.go, lines 225-262) *)

(** [fmt.Sprintf("job-%d", i+1)] *)
Definition jobID (i : nat) : string := "job-" +:+ pretty (S i).

Definition createJobsFromPrompts (prompts : list string) : list BatchJob :=
  imap (λ i prompt, {| ID := jobID i; Prompt := prompt; JobMetadata := Some ∅ |})
       prompts.

(** *** [strings.TrimSpace] and [strings.HasPrefix]

    A Go string is a byte sequence.  [TrimSpace] removes the leading and
    the trailing white space runes as [unicode.IsSpace] defines them: the
    six ASCII ones and, in their UTF-8 encodings, U+0085, U+00A0, U+1680,
    U+2000..U+200A, U+2028, U+2029, U+202F, U+205F and U+3000.  A byte
    that does not start (or, from the right, end) one of these encodings
    decodes to a rune that is no space, so matching the encodings byte by
    byte is what the decoder does. *)

Definition asciiSpace (c : ascii) : bool :=
  let n := nat_of_ascii c in
  bool_decide (n = 9 ∨ n = 10 ∨ n = 11 ∨ n = 12 ∨ n = 13 ∨ n = 32)%nat.

(** U+0085 is C2 85, U+00A0 is C2 A0. *)
Definition space2 (c1 c2 : ascii) : bool :=
  let a := nat_of_ascii c1 in let b := nat_of_ascii c2 in
  bool_decide (a = 194 ∧ (b = 133 ∨ b = 160))%nat.

(** U+1680 is E1 9A 80; U+2000..U+200A are E2 80 80..8A; U+2028, U+2029 and
    U+202F are E2 80 A8, A9 and AF; U+205F is E2 81 9F; U+3000 is E3 80 80. *)
Definition space3 (c1 c2 c3 : ascii) : bool :=
  let a := nat_of_ascii c1 in let b := nat_of_ascii c2 in
  let c := nat_of_ascii c3 in
  bool_decide ((a = 225 ∧ b = 154 ∧ c = 128)
             ∨ (a = 226 ∧ b = 128 ∧ (128 ≤ c ≤ 138 ∨ c = 168 ∨ c = 169 ∨ c = 175))
             ∨ (a = 226 ∧ b = 129 ∧ c = 159)
             ∨ (a = 227 ∧ b = 128 ∧ c = 128))%nat.

(** Strips white space runes from the front; [p2] and [p3] recognise the
    two- and three-byte encodings in the order the bytes are met. *)
Fixpoint trimFront (p2 : ascii → ascii → bool) (p3 : ascii → ascii → ascii → bool)
    (s : string) : string :=
  match s with
  | EmptyString => s
  | String c1 s1 =>
      if asciiSpace c1 then trimFront p2 p3 s1 else
      match s1 with
      | EmptyString => s
      | String c2 s2 =>
          if p2 c1 c2 then trimFront p2 p3 s2 else
          match s2 with
          | EmptyString => s
          | String c3 s3 => if p3 c1 c2 c3 then trimFront p2 p3 s3 else s
          end
      end
  end.

Definition TrimLeftSpace (s : string) : string := trimFront space2 space3 s.

Definition TrimRightSpace (s : string) : string :=
  String.rev (trimFront (λ c2 c1, space2 c1 c2) (λ c3 c2 c1, space3 c1 c2 c3)
                        (String.rev s)).

Definition TrimSpace (s : string) : string := TrimRightSpace (TrimLeftSpace s).

Definition HasPrefix (s p : string) : bool := String.prefix p s.

(** *** Reading the prompt file

    [os.Open] fails or gives a file; [bufio.Scanner] then yields the lines
    it could read ([scanner.Text()] at each successful [Scan]) and ends
    with [scanner.Err()]. *)
Record Scanned : Type := mkScanned {
  lines : list string;
  scanErr : option error
}.

Definition FileSystem : Type := string → error + Scanned.

(** The loop body of [createJobsFromFile]: trim, then keep what is neither
    empty nor a comment. *)
Definition keepLine (line : string) : bool :=
  negb (String.eqb line "") && negb (HasPrefix line "#").

Definition scanPrompts (ls : list string) : list string :=
  filter (λ line, keepLine line = true) (TrimSpace <$> ls).

Definition createJobsFromFile (fs : FileSystem) (filename : string)
    : list BatchJob * option error :=
  match fs filename with
  | inl err => ([], Some (Errorf_w "failed to open file: " err))
  | inr file =>
      let prompts := scanPrompts (lines file) in
      match scanErr file with
      | Some err => ([], Some (Errorf_w "error reading file: " err))
      | None => (createJobsFromPrompts prompts, None)
      end
  end.

(** The reading of the file source in which the raw lines are filtered and
    numbered: a line is dropped when trimming leaves nothing of it or when
    the line itself starts with '#', and the lines that remain become the
    prompts as they are. *)
Definition dropsLine_as_written (line : string) : bool :=
  String.eqb (TrimSpace line) "" || HasPrefix line "#".

Definition createJobsFromFile_as_written (fs : FileSystem) (filename : string)
    : list BatchJob * option error :=
  match fs filename with
  | inl err => ([], Some (Errorf_w "failed to open file: " err))
  | inr file =>
      match scanErr file with
      | Some err => ([], Some (Errorf_w "error reading file: " err))
      | None =>
          (createJobsFromPrompts
             (filter (λ line, dropsLine_as_written line = false) (lines file)),
           None)
      end
  end.

Definition bytes (l : list nat) : string :=
  foldr (λ n s, String (ascii_of_nat n) s) EmptyString l.

Example TrimSpace_ascii : TrimSpace "  hello world  " = "hello world".
Proof. vm_compute. reflexivity. Qed.

Example TrimSpace_tabs :
  TrimSpace (bytes [9; 32; 35; 120; 13; 10]%nat) = "#x".
Proof. vm_compute. reflexivity. Qed.

(** U+00A0 before and U+3000 after the text are trimmed; a lone
    continuation byte is not. *)
Example TrimSpace_unicode :
  TrimSpace (bytes [194; 160; 97; 227; 128; 128]%nat) = "a"
  ∧ TrimSpace (bytes [32; 133; 97; 32]%nat) = bytes [133; 97]%nat.
Proof. vm_compute. split; reflexivity. Qed.

Example createJobsFromPrompts_three :
  createJobsFromPrompts ["First prompt"; "Second prompt"; "Third prompt"]
  = [mkJob "job-1" "First prompt" (Some ∅);
     mkJob "job-2" "Second prompt" (Some ∅);
     mkJob "job-3" "Third prompt" (Some ∅)].
Proof. vm_compute. reflexivity. Qed.

(** ** The processor (main.go, lines 47-96) *)

(** Saturating subtraction of two clock readings ([time.Since]). *)
Definition Since (start now : Z) : Z :=
  Z.max MinInt64 (Z.min MaxInt64 (now - start)).

Section Engine.

(** [config.Config] and the [xollm.Client] instances are opaque to the
    engine. *)
Context {Config Client : Type}.

(** The collaborators.  [xollm.GetClient] is a package-level function
    variable, so what it answers may differ from call to call: the model
    gives it the identifier of the calling worker besides the arguments
    [bp.config] and [false] of the source.  [Generate] receives the
    client, [ctx.Err()] as it stands while the call runs, and the prompt,
    and returns the response and the error. *)
Variable GetClient : Z → Config → bool → Client + error.
Variable Generate : Client → option error → string → string * option error.

Record BatchProcessor : Type := mkProcessor {
  config : Config;
  workerCount : Z;
  stats : BatchStatistics
}.

Definition NewBatchProcessor (cfg : Config) (workerCount : Z) : BatchProcessor :=
  let workerCount := if bool_decide (workerCount ≤ 0) then 1 else workerCount in
  {| config := cfg;
     workerCount := workerCount;
     stats := mkStats 0 0 0 0 0 workerCount 0 0 |}.

Definition GetWorkerCount (bp : BatchProcessor) : Z := workerCount bp.
Definition GetProcessedCount (bp : BatchProcessor) : Z := CompletedJobs (stats bp).
Definition GetErrorCount (bp : BatchProcessor) : Z := FailedJobs (stats bp).
Definition GetStatistics (bp : BatchProcessor) : BatchStatistics := stats bp.
Definition Close (bp : BatchProcessor) : option error := None.

Definition set_stats (f : BatchStatistics → BatchStatistics) (bp : BatchProcessor)
    : BatchProcessor :=
  {| config := config bp; workerCount := workerCount bp; stats := f (stats bp) |}.

(** ** Channels *)

Record chan (A : Type) : Type := mkChan {
  buf : list A;
  cap : nat;
  closed : bool
}.
Global Arguments mkChan {A}.
Global Arguments buf {A}.
Global Arguments cap {A}.
Global Arguments closed {A}.

(** [make(chan A, n)] *)
Definition make {A} (n : nat) : chan A := mkChan [] n false.

(** A send goes through when the buffer has room, and blocks ([None])
    otherwise.  The senders look at [closed] themselves. *)
Definition send {A} (c : chan A) (x : A) : option (chan A) :=
  if bool_decide (length (buf c) < cap c)%nat
  then Some (mkChan (buf c ++ [x]) (cap c) (closed c))
  else None.

(** A receive takes the oldest element; on a drained closed channel it
    answers [ok = false], here [None] in the first component; on an empty
    open channel it blocks. *)
Definition recv {A} (c : chan A) : option (option A * chan A) :=
  match buf c with
  | x :: rest => Some (Some x, mkChan rest (cap c) (closed c))
  | [] => if closed c then Some (None, c) else None
  end.

Definition close {A} (c : chan A) : chan A := mkChan (buf c) (cap c) true.

(** ** One call of [ProcessJobs] (main.go, lines 98-217) *)

(** Where a worker goroutine stands. *)
Inductive WorkerState : Type :=
| WStart                                        (* before [GetClient] *)
| WDrain (err : error)                          (* at [range jobChan], no client *)
| WDrainSend (err : error) (r : BatchResult)    (* at [resultChan <- ...] *)
| WSelect (c : Client)                          (* at the outer [select] *)
| WGenerate (c : Client) (job : BatchJob) (start : Z)  (* in [Generate] *)
| WSend (c : Client) (r : BatchResult)          (* at the inner [select] *)
| WExit.                                        (* returned, [wg.Done] called *)

(** Where the main goroutine stands. *)
Inductive MainState : Type :=
| MCollect                       (* in [for result := range resultChan] *)
| MReturn                        (* statistics finalized, at [return] *)
| MReturned (err : option error) (* returned [results, err] *)
| MPanicked.                     (* a send on a closed channel *)

Record Run : Type := mkRun {
  bp : BatchProcessor;
  ctxErr : option error;              (* [ctx.Err()] *)
  clock : Z;                          (* [time.Now()] *)
  dispatcher : option (list BatchJob);(* the feeding goroutine and the jobs
                                         it has still to send, while it lives *)
  jobChan : chan BatchJob;
  resultChan : chan BatchResult;
  workers : list WorkerState;
  waiter : bool;                      (* the [wg.Wait()] goroutine lives *)
  results : list BatchResult;
  main : MainState
}.

Definition ProcessJobs (bp : BatchProcessor) (ctx : option error) (now : Z)
    (jobs : list BatchJob) : Run :=
  if bool_decide (length jobs = 0%nat) then
    {| bp := bp; ctxErr := ctx; clock := now; dispatcher := None;
       jobChan := make 0; resultChan := make 0; workers := []; waiter := false;
       results := []; main := MReturned None |}
  else
    {| bp := set_stats (λ _, mkStats (Z.of_nat (length jobs)) 0 0 0 0
                                     (workerCount bp) now 0) bp;
       ctxErr := ctx; clock := now;
       dispatcher := Some jobs;
       jobChan := make (length jobs);
       resultChan := make (length jobs);
       workers := replicate (Z.to_nat (workerCount bp)) WStart;
       waiter := true;
       results := [];
       main := MCollect |}.

(** What [ProcessJobs] has returned, once it has. *)
Definition outcome (s : Run) : option (list BatchResult * option error) :=
  match main s with
  | MReturned err => Some (results s, err)
  | _ => None
  end.

Definition set_worker (i : nat) (w : WorkerState) (s : Run) : Run :=
  mkRun (bp s) (ctxErr s) (clock s) (dispatcher s) (jobChan s) (resultChan s)
        (<[i:=w]> (workers s)) (waiter s) (results s) (main s).

Definition set_jobChan (c : chan BatchJob) (s : Run) : Run :=
  mkRun (bp s) (ctxErr s) (clock s) (dispatcher s) c (resultChan s)
        (workers s) (waiter s) (results s) (main s).

Definition set_resultChan (c : chan BatchResult) (s : Run) : Run :=
  mkRun (bp s) (ctxErr s) (clock s) (dispatcher s) (jobChan s) c
        (workers s) (waiter s) (results s) (main s).

Definition set_dispatcher (d : option (list BatchJob)) (s : Run) : Run :=
  mkRun (bp s) (ctxErr s) (clock s) d (jobChan s) (resultChan s)
        (workers s) (waiter s) (results s) (main s).

Definition set_main (m : MainState) (s : Run) : Run :=
  mkRun (bp s) (ctxErr s) (clock s) (dispatcher s) (jobChan s) (resultChan s)
        (workers s) (waiter s) (results s) m.

(** *** The worker (lines 169-217) *)

(** The result a worker without a client substitutes for a job. *)
Definition failedResult (workerID : Z) (err : error) (job : BatchJob) : BatchResult :=
  {| Job := job; Response := ""; Duration := 0;
     ResultError := Some (Errorf_w "failed to create LLM client: " err);
     Worker := workerID |}.

(** [resultChan <- r], after which the worker stands at [next]. *)
Definition sendResult (i : nat) (next : WorkerState) (r : BatchResult) (s : Run)
    : option Run :=
  if closed (resultChan s) then Some (set_main MPanicked s)
  else c ← send (resultChan s) r; Some (set_resultChan c (set_worker i next s)).

(** [<-jobChan], after which the worker holds the job or, the channel
    closed and drained, returns. *)
Definition recvJob (i : nat) (got : BatchJob → WorkerState) (s : Run) : option Run :=
  '(oj, c) ← recv (jobChan s);
  Some (match oj with
        | Some job => set_jobChan c (set_worker i (got job) s)
        | None => set_worker i WExit s
        end).

(** [<-ctx.Done()] *)
Definition onCtxDone (i : nat) (s : Run) : option Run :=
  match ctxErr s with
  | Some _ => Some (set_worker i WExit s)
  | None => None
  end.

(** One action of worker [i] (its [workerID] is [i + 1]); [viaDone] says
    which case of a [select] is taken. *)
Definition work (i : nat) (viaDone : bool) (s : Run) : option Run :=
  w ← workers s !! i;
  let workerID := Z.of_nat i + 1 in
  match w with
  | WStart =>
      if viaDone then None else
      Some (set_worker i match GetClient workerID (config (bp s)) false with
                         | inl client => WSelect client
                         | inr err => WDrain err
                         end s)
  | WDrain err =>
      if viaDone then None else
      recvJob i (λ job, WDrainSend err (failedResult workerID err job)) s
  | WDrainSend err r =>
      if viaDone then None else sendResult i (WDrain err) r s
  | WSelect client =>
      if viaDone then onCtxDone i s
      else recvJob i (λ job, WGenerate client job (clock s)) s
  | WGenerate client job start =>
      if viaDone then None else
      let '(response, genErr) := Generate client (ctxErr s) (Prompt job) in
      Some (set_worker i (WSend client
              {| Job := job; Response := response;
                 Duration := Since start (clock s);
                 ResultError := genErr; Worker := workerID |}) s)
  | WSend client r =>
      if viaDone then onCtxDone i s else sendResult i (WSelect client) r s
  | WExit => None
  end.

(** *** The dispatcher (lines 125-134) *)
Definition dispatch (viaDone : bool) (s : Run) : option Run :=
  rest ← dispatcher s;
  match rest with
  | [] =>
      if viaDone then None
      else Some (set_jobChan (close (jobChan s)) (set_dispatcher None s))
  | job :: rest =>
      if viaDone then
        match ctxErr s with
        | Some _ => Some (set_jobChan (close (jobChan s)) (set_dispatcher None s))
        | None => None
        end
      else c ← send (jobChan s) job; Some (set_jobChan c (set_dispatcher (Some rest) s))
  end.

(** *** The goroutine of [wg.Wait(); close(resultChan)] (lines 138-141) *)

Definition exited (w : WorkerState) : bool :=
  match w with
  | WExit => true
  | _ => false
  end.

(** [wg.Wait()] returns when every worker has called [wg.Done()]. *)
Definition waitClose (s : Run) : option Run :=
  if waiter s then
    if forallb exited (workers s)
    then Some (mkRun (bp s) (ctxErr s) (clock s) (dispatcher s) (jobChan s)
                     (close (resultChan s)) (workers s) false (results s) (main s))
    else None
  else None.

(** *** The collector (lines 143-165) *)

(** The update of the statistics for one result (lines 147-154). *)
Definition foldResult (r : BatchResult) (st : BatchStatistics) : BatchStatistics :=
  mkStats (TotalJobs st)
          (if ResultError r is None then wrap64 (CompletedJobs st + 1)
           else CompletedJobs st)
          (if ResultError r is None then FailedJobs st
           else wrap64 (FailedJobs st + 1))
          (wrap64 (TotalDuration st + Duration r))
          (AverageDuration st) (WorkerCount st) (StartTime st) (EndTime st).

(** Lines 158-163; Go's integer division truncates toward zero. *)
Definition finalize (now : Z) (st : BatchStatistics) : BatchStatistics :=
  mkStats (TotalJobs st) (CompletedJobs st) (FailedJobs st) (TotalDuration st)
          (if bool_decide (TotalJobs st > 0)
           then wrap64 (TotalDuration st `quot` TotalJobs st)
           else AverageDuration st)
          (WorkerCount st) (StartTime st) now.

Definition collect (s : Run) : option Run :=
  match main s with
  | MCollect =>
      '(or, c) ← recv (resultChan s);
      Some match or with
           | Some r =>
               mkRun (set_stats (foldResult r) (bp s)) (ctxErr s) (clock s)
                     (dispatcher s) (jobChan s) c (workers s) (waiter s)
                     (results s ++ [r]) MCollect
           | None =>
               mkRun (set_stats (finalize (clock s)) (bp s)) (ctxErr s) (clock s)
                     (dispatcher s) (jobChan s) c (workers s) (waiter s)
                     (results s) MReturn
           end
  | MReturn => Some (set_main (MReturned (ctxErr s)) s)
  | MReturned _ | MPanicked => None
  end.

(** *** Schedules *)

Inductive Event : Type :=
| Tick (d : Z)                    (* the clock advances by [d] *)
| CancelCtx (deadline : bool)     (* the context is cancelled or expires *)
| Dispatch (viaDone : bool)
| Work (i : nat) (viaDone : bool)
| WaitClose
| Collect.

Definition panicked (m : MainState) : bool :=
  match m with
  | MPanicked => true
  | _ => false
  end.

(** One atomic action; [None] when the goroutine is blocked or gone.  A
    panic ends the program. *)
Definition step (ev : Event) (s : Run) : option Run :=
  if panicked (main s) then None else
      match ev with
      | Tick d =>
          if bool_decide (0 ≤ d)
          then Some (mkRun (bp s) (ctxErr s) (clock s + d) (dispatcher s) (jobChan s)
                           (resultChan s) (workers s) (waiter s) (results s) (main s))
          else None
      | CancelCtx deadline =>
          match ctxErr s with
          | None =>
              Some (mkRun (bp s) (Some (if deadline then DeadlineExceeded else Canceled))
                          (clock s) (dispatcher s) (jobChan s) (resultChan s)
                          (workers s) (waiter s) (results s) (main s))
          | Some _ => None
          end
      | Dispatch viaDone => dispatch viaDone s
      | Work i viaDone => work i viaDone s
      | WaitClose => waitClose s
      | Collect => collect s
      end.

Fixpoint run (evs : list Event) (s : Run) : option Run :=
  match evs with
  | [] => Some s
  | ev :: evs => s' ← step ev s; run evs s'
  end.

(** The actions of the program's goroutines, as opposed to those of its
    environment (the clock and the owner of the context). *)
Definition programEvent (ev : Event) : bool :=
  match ev with
  | Tick _ | CancelCtx _ => false
  | _ => true
  end.

(** ** Runs *)

Lemma run_app evs1 evs2 s :
  run (evs1 ++ evs2) s = s' ← run evs1 s; run evs2 s'.
Proof.
  revert s. induction evs1 as [|ev evs1 IH]; intros s; simpl; [done|].
  destruct (step ev s); simpl; [apply IH|done].
Qed.

(** A property that holds initially and that every step preserves holds
    along every run. *)
Lemma run_invariant (P : Run → Prop) :
  (∀ ev s s', step ev s = Some s' → P s → P s') →
  ∀ evs s s', run evs s = Some s' → P s → P s'.
Proof.
  intros Hstep evs. induction evs as [|ev evs IH]; intros s s' Hrun HP; simpl in *.
  - by simplify_eq.
  - destruct (step ev s) as [s1|] eqn:E; simpl in *; [|done].
    eapply IH; eauto.
Qed.

(** ** Conservation of jobs *)

(** The job a worker has in hand. *)
Definition holds (w : WorkerState) : list BatchJob :=
  match w with
  | WDrainSend _ r | WSend _ r => [Job r]
  | WGenerate _ job _ => [job]
  | _ => []
  end.

Definition held (ws : list WorkerState) : list BatchJob := ws ≫= holds.

Definition pending (s : Run) : list BatchJob := default [] (dispatcher s).

(** Every job the engine still knows of, wherever it is. *)
Definition inFlight (s : Run) : list BatchJob :=
  pending s ++ buf (jobChan s) ++ held (workers s)
  ++ (Job <$> buf (resultChan s)) ++ (Job <$> results s).

(** Jobs are neither duplicated nor invented, and are dropped only once
    the context is cancelled. *)
Definition Conserved (jobs : list BatchJob) (s : Run) : Prop :=
  ∃ lost, jobs ≡ₚ inFlight s ++ lost ∧ (ctxErr s = None → lost = []).

Lemma held_lookup ws i w :
  ws !! i = Some w →
  ∃ rest, held ws ≡ₚ holds w ++ rest
          ∧ ∀ w', held (<[i:=w']> ws) ≡ₚ holds w' ++ rest.
Proof.
  intros Hi. exists (held (take i ws) ++ held (drop (S i) ws)). split.
  - rewrite <-(take_drop_middle ws i w) at 1 by done.
    unfold held. rewrite bind_app, bind_cons. solve_Permutation.
  - intros w'. rewrite insert_take_drop by (by eapply lookup_lt_Some).
    unfold held. rewrite bind_app, bind_cons. solve_Permutation.
Qed.

Ltac step_inv H :=
  unfold step in H;
  match type of H with
  | context [panicked ?m] => destruct (panicked m) eqn:?; [done|]
  end;
  match type of H with
  | context [match ?ev with Tick _ => _ | _ => _ end] => destruct ev
  end;
  unfold dispatch, work, waitClose, collect, sendResult, recvJob,
    onCtxDone, send, recv in H;
  repeat (case_match; simplify_option_eq; try done).

Ltac conserved_by H :=
  split; [etrans; [exact H|]; solve_Permutation | done].

Lemma step_Conserved jobs ev s s' :
  step ev s = Some s' → Conserved jobs s → Conserved jobs s'.
Proof.
  intros Hstep (lost & Hperm & Hlost).
  destruct s as [bp0 ce ck d [jb jn jk] [rb rn rk] ws wt rs m].
  unfold Conserved, inFlight, pending in *; simpl in *.
  step_inv Hstep; simpl in *.
  all: try (by exists lost).
  all: try match goal with
    | H : _ !! _ = Some ?w |- _ =>
        destruct (held_lookup _ _ _ H) as (rest & Hh & Hh'); simpl in *;
        rewrite Hh in Hperm; setoid_rewrite Hh'; simpl in *
    end.
  all: rewrite ?fmap_app; simpl.
  all: first
    [ exists lost; conserved_by Hperm
    | match type of Hperm with
      | _ ≡ₚ ?b :: (?l ++ _) ++ _ => exists (b :: l ++ lost)
      end; conserved_by Hperm
    | match type of Hperm with
      | context [Job ?r :: _] => exists (Job r :: lost)
      end; conserved_by Hperm ].
Qed.

(** ** The shape of a run *)

(** Who may close what, and when: the facts about the goroutines that do
    not depend on the jobs themselves. *)
Record Shape (cfg : Config) (count : Z) (jobs : list BatchJob) (s : Run) : Prop := {
  shape_config : config (bp s) = cfg;
  shape_count : workerCount (bp s) = count;
  shape_workers : length (workers s) = Z.to_nat count;
  shape_caps : cap (jobChan s) = length jobs ∧ cap (resultChan s) = length jobs;
  shape_total : TotalJobs (stats (bp s)) = Z.of_nat (length jobs);
  shape_no_panic : main s ≠ MPanicked;
  shape_waiter : waiter s = negb (closed (resultChan s));
  shape_exited : closed (resultChan s) = true → Forall (λ w, exited w = true) (workers s);
  shape_dispatcher : closed (jobChan s) = true ↔ dispatcher s = None;
  shape_main : main s ≠ MCollect →
               closed (resultChan s) = true ∧ buf (resultChan s) = []
}.

Lemma forallb_exited ws :
  forallb exited ws = true ↔ Forall (λ w, exited w = true) ws.
Proof.
  induction ws as [|w ws IH]; simpl.
  - split; [constructor|done].
  - rewrite andb_true_iff, Forall_cons, IH. done.
Qed.

(** A worker that has not returned contradicts a closed result channel. *)
Ltac worker_alive :=
  match goal with
  | Hi : ?ws !! _ = Some ?w, HF : Forall (λ w, exited w = true) ?ws |- _ =>
      by apply (Forall_lookup_1 _ _ _ _ HF) in Hi
  end.

Lemma step_Shape cfg count jobs ev s s' :
  step ev s = Some s' → Shape cfg count jobs s → Shape cfg count jobs s'.
Proof.
  intros Hstep [Hcfg Hcount Hws Hcaps Htot Hnp Hwt Hex Hd Hm].
  destruct s as [[cfg0 n0 st0] ce ck d [jb jn jk] [rb rn rk] ws wt rs m].
  simpl in *.
  step_inv Hstep; simpl in *.
  all: split; simpl; rewrite ?length_insert; try done.
  all: try (intros Hrk; specialize (Hex Hrk);
            first [worker_alive | by apply Forall_insert]).
  all: try (specialize (Hex eq_refl); worker_alive).
  all: try (by intros _; apply forallb_exited).
  all: try (intuition congruence).
Qed.

(** ** Where results come from *)

(** [r] is what worker [i] produces for the job [Job r]: the substitute
    result when the worker got no client, and otherwise what its client
    answered for the job's prompt, with [ctx.Err()] as it stood during the
    call (still [None] if the context has not been cancelled since). *)
Definition resultFrom (cfg : Config) (ce : option error) (i : nat)
    (r : BatchResult) : Prop :=
  Worker r = Z.of_nat i + 1 ∧
  match GetClient (Z.of_nat i + 1) cfg false with
  | inr err => r = failedResult (Z.of_nat i + 1) err (Job r)
  | inl client =>
      ∃ ce', (ce = None → ce' = None)
             ∧ (Response r, ResultError r) = Generate client ce' (Prompt (Job r))
  end.

Definition workerOk (cfg : Config) (ce : option error) (i : nat)
    (w : WorkerState) : Prop :=
  match w with
  | WStart | WExit => True
  | WDrain err => GetClient (Z.of_nat i + 1) cfg false = inr err
  | WDrainSend err r =>
      GetClient (Z.of_nat i + 1) cfg false = inr err ∧ resultFrom cfg ce i r
  | WSelect client | WGenerate client _ _ =>
      GetClient (Z.of_nat i + 1) cfg false = inl client
  | WSend client r =>
      GetClient (Z.of_nat i + 1) cfg false = inl client ∧ resultFrom cfg ce i r
  end.

Record Provenance (cfg : Config) (s : Run) : Prop := {
  prov_workers : ∀ i w, workers s !! i = Some w → workerOk cfg (ctxErr s) i w;
  prov_results :
    Forall (λ r, ∃ i, (i < length (workers s))%nat ∧ resultFrom cfg (ctxErr s) i r)
           (buf (resultChan s) ++ results s)
}.

Lemma resultFrom_cancel cfg ce i r :
  resultFrom cfg None i r → resultFrom cfg ce i r.
Proof.
  unfold resultFrom. intros [? H]. split; [done|].
  destruct (GetClient _ _ _); [|done].
  destruct H as (ce' & Hce & ?). exists ce'. split; [|done]. intros ?. by apply Hce.
Qed.

Lemma workerOk_cancel cfg ce i w :
  workerOk cfg None i w → workerOk cfg ce i w.
Proof. destruct w; simpl; intuition auto using resultFrom_cancel. Qed.

Lemma lookup_insert_workers (P : nat → WorkerState → Prop)
    (ws : list WorkerState) i w :
  (∀ j w', ws !! j = Some w' → P j w') → P i w →
  ∀ j w', <[i:=w]> ws !! j = Some w' → P j w'.
Proof.
  intros Hall Hi j w' Hj. apply list_lookup_insert_Some in Hj.
  destruct Hj as [(-> & -> & _)|[_ ?]]; eauto.
Qed.

Lemma step_Provenance cfg count jobs ev s s' :
  step ev s = Some s' → Shape cfg count jobs s →
  Provenance cfg s → Provenance cfg s'.
Proof.
  intros Hstep [Hcfg _ _ _ _ _ _ _ _ _] [Hw Hr].
  destruct s as [[cfg0 n0 st0] ce ck d [jb jn jk] [rb rn rk] ws wt rs m].
  simpl in *. subst cfg0.
  step_inv Hstep; simpl in *.
  all: split; simpl; rewrite ?length_insert; try done.
  all: try match goal with
    | Hi : _ !! _ = Some _ |- _ =>
        pose proof (Hw _ _ Hi) as Hold; pose proof (lookup_lt_Some _ _ _ Hi);
        simpl in Hold
    end.
  all: try (apply lookup_insert_workers; [done|]; simpl).
  all: try done.
  all: try (by intros; eapply workerOk_cancel; eauto).
  all: try (by eapply Forall_impl; [exact Hr|];
            intros ? (?&?&?); eauto using resultFrom_cancel).
  all: try tauto.
  all: try (apply Forall_cons in Hr as [Hb Hr];
            apply Forall_app in Hr as [Hr1 Hr2];
            rewrite !Forall_app, ?Forall_singleton; by split_and!).
  all: try (apply Forall_app in Hr as [Hr1 Hr2];
            rewrite !Forall_app, ?Forall_singleton;
            split_and!; try tauto; eexists; split; [eassumption|tauto]).
  all: try (split; [tauto|]); unfold resultFrom; simpl.
  all: try (by rewrite Hold).
  all: rewrite Hold; split; [done|]; exists ce; by split.
Qed.

(** ** Workers leave only a drained intake channel *)

(** As long as the context is not cancelled, and whatever the context for
    a worker that got no client, a worker returns only once the intake
    channel is closed and empty. *)
Definition Drained (cfg : Config) (s : Run) : Prop :=
  ∀ i, workers s !! i = Some WExit →
       ctxErr s = None ∨ (∃ err, GetClient (Z.of_nat i + 1) cfg false = inr err) →
       closed (jobChan s) = true ∧ buf (jobChan s) = [].

Lemma step_Drained cfg count jobs ev s s' :
  step ev s = Some s' → Shape cfg count jobs s → Provenance cfg s →
  Drained cfg s → Drained cfg s'.
Proof.
  intros Hstep [Hcfg _ _ _ _ _ _ _ Hd _] [Hw _] Hdr.
  destruct s as [[cfg0 n0 st0] ce ck d [jb jn jk] [rb rn rk] ws wt rs m].
  unfold Drained in *; simpl in *. subst cfg0.
  step_inv Hstep; simpl in *.
  all: try done.
  all: intros j Hj Hprem.
  all: try match goal with
    | Hi : _ !! _ = Some _ |- _ =>
        pose proof (Hw _ _ Hi) as Hold; simpl in Hold
    end.
  all: try (apply list_lookup_insert_Some in Hj as [(-> & ? & _)|[_ Hj]];
            simplify_eq).
  all: try (specialize (Hdr _ Hj)).
  all: try (destruct Hprem as [?|[err Herr]]; simplify_eq;
            try (by rewrite Herr in Hold; destruct_and?; simplify_eq);
            try (destruct Hdr as [? ?]; [by eauto|]; simplify_eq;
                 try done; by intuition congruence)).
  all: by destruct (Hdr Hprem) as [? ?]; simplify_eq.
Qed.

(** ** Accounting *)

Definition succeeded (r : BatchResult) : bool :=
  if ResultError r is None then true else false.

Definition countSucceeded (rs : list BatchResult) : nat :=
  length (filter (λ r, succeeded r = true) rs).

Definition countFailed (rs : list BatchResult) : nat :=
  length (filter (λ r, succeeded r = false) rs).

Definition sumDurations (rs : list BatchResult) : Z :=
  foldr (λ r acc, Duration r + acc) 0 rs.

Lemma count_split rs : (countSucceeded rs + countFailed rs = length rs)%nat.
Proof.
  unfold countSucceeded, countFailed.
  induction rs as [|r rs IH]; [done|].
  rewrite !filter_cons. destruct (succeeded r); simpl; repeat case_decide; simpl; try done; lia.
Qed.

Lemma countSucceeded_snoc rs r :
  countSucceeded (rs ++ [r])
  = (countSucceeded rs + if succeeded r then 1 else 0)%nat.
Proof.
  unfold countSucceeded. rewrite filter_app, length_app, filter_cons, filter_nil.
  destruct (succeeded r); by case_decide.
Qed.

Lemma countFailed_snoc rs r :
  countFailed (rs ++ [r])
  = (countFailed rs + if succeeded r then 0 else 1)%nat.
Proof.
  unfold countFailed. rewrite filter_app, length_app, filter_cons, filter_nil.
  destruct (succeeded r); by case_decide.
Qed.

Lemma sumDurations_snoc rs r :
  sumDurations (rs ++ [r]) = sumDurations rs + Duration r.
Proof.
  unfold sumDurations. induction rs as [|r' rs IH]; simpl; lia.
Qed.

Lemma wrap64_add_l a b : wrap64 (wrap64 a + b) = wrap64 (a + b).
Proof.
  unfold wrap64.
  replace ((a + 2 ^ 63) `mod` 2 ^ 64 - 2 ^ 63 + b + 2 ^ 63)
    with ((a + 2 ^ 63) `mod` 2 ^ 64 + b) by lia.
  rewrite Zplus_mod_idemp_l. f_equal. f_equal. lia.
Qed.

Lemma quot_in_range a n :
  MinInt64 ≤ a ≤ MaxInt64 → 0 < n → MinInt64 ≤ a `quot` n ≤ MaxInt64.
Proof.
  intros Ha Hn. destruct (decide (0 ≤ a)) as [Hpos|Hneg].
  - pose proof (Z.quot_pos a n Hpos ltac:(lia)).
    pose proof (Z.quot_le_upper_bound a n a ltac:(lia) ltac:(nia)).
    unfold MinInt64 in *. lia.
  - assert (a `quot` n = - ((- a) `quot` n)) as -> by (rewrite Z.quot_opp_l; lia).
    pose proof (Z.quot_pos (- a) n ltac:(lia) ltac:(lia)).
    pose proof (Z.quot_le_upper_bound (- a) n (- a) ltac:(lia) ltac:(nia)).
    unfold MaxInt64 in *. lia.
Qed.

(** The statistics against the results collected so far. *)
Record Accounted (s : Run) : Prop := {
  acc_completed :
    CompletedJobs (stats (bp s)) = Z.of_nat (countSucceeded (results s));
  acc_failed :
    FailedJobs (stats (bp s)) = Z.of_nat (countFailed (results s));
  acc_duration :
    TotalDuration (stats (bp s)) = wrap64 (sumDurations (results s));
  acc_average :
    match main s with
    | MCollect => AverageDuration (stats (bp s)) = 0
    | MReturn | MReturned _ =>
        AverageDuration (stats (bp s))
        = TotalDuration (stats (bp s)) `quot` TotalJobs (stats (bp s))
    | MPanicked => True
    end
}.

Lemma Conserved_length jobs s :
  Conserved jobs s →
  (length (buf (resultChan s)) + length (results s) ≤ length jobs)%nat.
Proof.
  intros (lost & Hperm & _). apply Permutation_length in Hperm.
  unfold inFlight in Hperm. rewrite !length_app, !length_fmap in Hperm. lia.
Qed.

Lemma step_Accounted cfg count jobs ev s s' :
  jobs ≠ [] → Z.of_nat (length jobs) ≤ MaxInt64 →
  step ev s = Some s' → Shape cfg count jobs s → Conserved jobs s →
  Accounted s → Accounted s'.
Proof.
  intros Hne Hmax Hstep [_ _ _ _ Htot Hnp _ _ _ _] Hcons [Hc Hf Hdur Havg].
  apply Conserved_length in Hcons.
  destruct s as [[cfg0 n0 st0] ce ck d [jb jn jk] [rb rn rk] ws wt rs m].
  simpl in *.
  step_inv Hstep; simpl in *.
  all: try (by split).
  all: try (by destruct m).
  all: split; simpl; try done.
  - assert (0 < length jobs)%nat by (destruct jobs; [done|simpl; lia]).
    rewrite bool_decide_true by lia.
    apply wrap64_id, quot_in_range; [|lia].
    rewrite Hdur. apply wrap64_range.
  - rewrite countSucceeded_snoc. unfold succeeded.
    pose proof (count_split rs).
    destruct (ResultError b); [lia|].
    rewrite wrap64_id; unfold MinInt64, MaxInt64 in *; lia.
  - rewrite countFailed_snoc. unfold succeeded.
    pose proof (count_split rs).
    destruct (ResultError b); [|lia].
    rewrite wrap64_id; unfold MinInt64, MaxInt64 in *; lia.
  - by rewrite Hdur, wrap64_add_l, sumDurations_snoc.
Qed.

Lemma Accounted_sum s :
  Accounted s →
  CompletedJobs (stats (bp s)) + FailedJobs (stats (bp s))
  = Z.of_nat (length (results s)).
Proof. intros [Hc Hf _ _]. rewrite Hc, Hf. pose proof (count_split (results s)). lia. Qed.

(** ** What a return tells *)

Lemma held_exited ws : Forall (λ w, exited w = true) ws → held ws = [].
Proof.
  unfold held. induction 1 as [|w ws Hw _ IH]; [done|].
  rewrite bind_cons, IH. by destruct w.
Qed.

(** Once the collector has left its loop with the context not cancelled,
    the results are the submitted jobs, each once. *)
Lemma collected_all cfg count jobs s :
  1 ≤ count → Shape cfg count jobs s → Conserved jobs s → Drained cfg s →
  main s ≠ MCollect → ctxErr s = None →
  Job <$> results s ≡ₚ jobs.
Proof.
  intros Hcount Hshape (lost & Hperm & Hlost) Hdr Hm Hce.
  destruct Hshape as [_ _ Hws _ _ _ _ Hex Hd Hmain].
  destruct (Hmain Hm) as [Hclosed Hbuf]. specialize (Hex Hclosed).
  rewrite (Hlost Hce) in Hperm.
  destruct (workers s) as [|w ws] eqn:Ews; [simpl in Hws; lia|].
  assert (workers s !! 0%nat = Some WExit) as H0.
  { rewrite Ews. simpl. apply Forall_cons in Hex as [Hw _]. by destruct w. }
  destruct (Hdr _ H0 (or_introl Hce)) as [Hjc Hjb].
  apply Hd in Hjc. unfold inFlight, pending in Hperm.
  rewrite Hjc, Hjb, Hbuf, Ews, (held_exited _ Hex) in Hperm. simpl in Hperm.
  by rewrite app_nil_r in Hperm.
Qed.

Record Returns (jobs : list BatchJob) (s : Run) : Prop := {
  ret_complete : main s = MReturned None → Job <$> results s ≡ₚ jobs;
  ret_error : ∀ e, main s = MReturned (Some e) → ctxErr s = Some e
}.

Lemma step_Returns cfg count jobs ev s s' :
  1 ≤ count →
  step ev s = Some s' → Shape cfg count jobs s → Conserved jobs s →
  Drained cfg s → Returns jobs s → Returns jobs s'.
Proof.
  intros Hcount Hstep Hshape Hcons Hdr [Hc He].
  pose proof (collected_all _ _ _ _ Hcount Hshape Hcons Hdr) as Hall.
  destruct Hshape as [_ _ _ _ _ _ _ _ _ Hmain].
  destruct s as [[cfg0 n0 st0] ce ck d [jb jn jk] [rb rn rk] ws wt rs m].
  simpl in *.
  step_inv Hstep; simpl in *.
  all: split; simpl; try done.
  all: try (intros e' He'; specialize (He _ He'); congruence).
  all: try (intros ?; simplify_eq; by apply Hall).
  all: try (intros; simplify_eq; done).
Qed.

(** ** The invariant of a run *)

(** What the submitted job list and the processor must satisfy: the list is
    not empty (an empty one never starts a run) and the processor has a
    worker. *)
Record Admissible (count : Z) (jobs : list BatchJob) : Prop := {
  adm_jobs : jobs ≠ [];
  adm_count : 1 ≤ count
}.

Record Inv (cfg : Config) (count : Z) (jobs : list BatchJob) (s : Run) : Prop := {
  inv_shape : Shape cfg count jobs s;
  inv_conserved : Conserved jobs s;
  inv_provenance : Provenance cfg s;
  inv_drained : Drained cfg s;
  inv_returns : Returns jobs s
}.

Lemma step_Inv cfg count jobs ev s s' :
  Admissible count jobs →
  step ev s = Some s' → Inv cfg count jobs s → Inv cfg count jobs s'.
Proof.
  intros [Hne Hcount] Hstep [Hs Hc Hp Hd Hr]. split.
  - eapply step_Shape; eauto.
  - eapply step_Conserved; eauto.
  - eapply step_Provenance; eauto.
  - eapply step_Drained; eauto.
  - eapply step_Returns; eauto.
Qed.

Lemma held_replicate n : held (replicate n WStart) = [].
Proof.
  unfold held. induction n as [|n IH]; [done|].
  change (replicate (S n) WStart) with (WStart :: replicate n WStart).
  by rewrite bind_cons, IH.
Qed.

Lemma ProcessJobs_Inv bp0 ctx now jobs :
  jobs ≠ [] →
  Inv (config bp0) (workerCount bp0) jobs (ProcessJobs bp0 ctx now jobs).
Proof.
  intros Hne. unfold ProcessJobs.
  rewrite bool_decide_false by (by destruct jobs).
  split.
  - split; simpl; try done. apply length_replicate.
  - exists []. split; [|done]. unfold inFlight, pending; simpl.
    rewrite held_replicate. simpl. by rewrite !app_nil_r.
  - split; simpl; [|done].
    intros i w Hi. apply lookup_replicate in Hi as [-> _]. done.
  - intros i Hi. simpl in Hi. by apply lookup_replicate in Hi as [? _].
  - split; simpl; done.
Qed.

Lemma ProcessJobs_Accounted bp0 ctx now jobs :
  jobs ≠ [] → Accounted (ProcessJobs bp0 ctx now jobs).
Proof.
  intros Hne. unfold ProcessJobs.
  rewrite bool_decide_false by (by destruct jobs). by split.
Qed.

Lemma run_Accounted cfg count jobs evs s s' :
  Admissible count jobs → Z.of_nat (length jobs) ≤ MaxInt64 →
  run evs s = Some s' → Inv cfg count jobs s → Accounted s → Accounted s'.
Proof.
  intros Hadm Hlen Hrun Hinv Hacc.
  cut (Inv cfg count jobs s' ∧ Accounted s'); [tauto|].
  apply (run_invariant (λ s, Inv cfg count jobs s ∧ Accounted s))
    with (evs := evs) (s := s); [|done|done].
  intros ev s1 s2 Hstep [Hi Ha]. split; [by eapply step_Inv|].
  destruct Hadm, Hi. eapply step_Accounted; eauto.
Qed.

Lemma run_Inv cfg count jobs evs s s' :
  Admissible count jobs →
  run evs s = Some s' → Inv cfg count jobs s → Inv cfg count jobs s'.
Proof.
  intros Hadm. apply (run_invariant (Inv cfg count jobs)).
  intros ev s1 s2. by apply step_Inv.
Qed.

(** ** Termination: every schedule is finite *)

(** How many actions a worker can still take on its own account. *)
Definition workerWeight (w : WorkerState) : nat :=
  match w with
  | WStart => 2
  | WDrain _ | WSelect _ => 1
  | WDrainSend _ _ | WSend _ _ => 3
  | WGenerate _ _ _ => 4
  | WExit => 0
  end.

Definition workersWeight (ws : list WorkerState) : nat :=
  sum_list_with workerWeight ws.

(** A bound on the number of actions the goroutines can still take: a job
    weighs 5 before it is sent, 4 in the intake channel, and a result 1 in
    the output channel. *)
Definition measure (s : Run) : nat :=
  if panicked (main s) then 0 else
  (match dispatcher s with
   | Some rest => 1 + 5 * length rest
   | None => 0
   end
   + 4 * length (buf (jobChan s))
   + workersWeight (workers s)
   + length (buf (resultChan s))
   + (if waiter s then 1 else 0)
   + match main s with
     | MCollect => 2
     | MReturn => 1
     | _ => 0
     end)%nat.

Lemma workersWeight_insert ws i w w' :
  ws !! i = Some w →
  (workersWeight (<[i:=w']> ws) + workerWeight w
   = workersWeight ws + workerWeight w')%nat.
Proof.
  intros Hi. unfold workersWeight.
  rewrite insert_take_drop by (by eapply lookup_lt_Some).
  rewrite <-(take_drop_middle ws i w) at 3 by done.
  rewrite !sum_list_with_app. simpl. lia.
Qed.

Lemma step_measure ev s s' :
  programEvent ev = true → step ev s = Some s' →
  (measure s' < measure s)%nat.
Proof.
  intros Hev Hstep.
  destruct s as [bp0 ce ck d [jb jn jk] [rb rn rk] ws wt rs m].
  unfold measure; simpl in *.
  step_inv Hstep; simpl in *; try done.
  all: rewrite ?Heqb; simpl.
  all: try match goal with
    | Hi : _ !! _ = Some _ |- context [<[_:=?w']> _] =>
        let H := fresh in
        pose proof (workersWeight_insert _ _ _ w' Hi) as H; simpl in H
    end.
  all: rewrite ?length_app; simpl; try lia.
  all: match goal with
    | Hi : _ !! _ = Some _ |- _ =>
        pose proof (workersWeight_insert _ _ _ WExit Hi); simpl in *; lia
    end.
Qed.

Lemma run_measure evs s s' :
  Forall (λ ev, programEvent ev = true) evs → run evs s = Some s' →
  (length evs + measure s' ≤ measure s)%nat.
Proof.
  intros Hevs. revert s. induction Hevs as [|ev evs Hev _ IH]; intros s Hrun.
  - simpl in *. simplify_eq. lia.
  - simpl in *. destruct (step ev s) as [s1|] eqn:E; [|done]. simpl in *.
    pose proof (step_measure _ _ _ Hev E). specialize (IH _ Hrun). lia.
Qed.

(** ** Progress: no deadlock *)

Lemma Conserved_room jobs s i w :
  Conserved jobs s → workers s !! i = Some w → holds w ≠ [] →
  (length (buf (resultChan s)) < length jobs)%nat.
Proof.
  intros (lost & Hperm & _) Hi Hw.
  destruct (held_lookup _ _ _ Hi) as (rest & Hh & _).
  apply Permutation_length in Hperm, Hh.
  unfold inFlight in Hperm.
  rewrite !length_app, !length_fmap in Hperm. rewrite length_app in Hh.
  destruct (holds w); [done|]. simpl in Hh. lia.
Qed.

Lemma not_all_exited ws :
  forallb exited ws = false → ∃ i w, ws !! i = Some w ∧ exited w = false.
Proof.
  induction ws as [|w ws IH]; simpl; [done|].
  intros [H|H]%andb_false_iff.
  - by exists 0%nat, w.
  - destruct (IH H) as (i & w' & ? & ?). by exists (S i), w'.
Qed.

(** While [ProcessJobs] has not returned, some goroutine can act. *)
Lemma progress cfg count jobs s :
  Admissible count jobs → Inv cfg count jobs s → outcome s = None →
  ∃ ev, programEvent ev = true ∧ is_Some (step ev s).
Proof.
  intros [Hne _] [Hshape Hcons _ _ _] Hout.
  destruct Hshape as [_ _ _ [Hcj Hcr] _ Hnp Hwt Hex Hd Hm].
  assert (panicked (main s) = false) as Hpan by (by destruct (main s)).
  assert (0 < length jobs)%nat as Hlen by (destruct jobs; [done|simpl; lia]).
  unfold outcome in Hout.
  destruct (main s) eqn:Emain; try done.
  2: { exists Collect. split; [done|]. unfold step, collect. rewrite Emain. simpl. eauto. }
  destruct (forallb exited (workers s)) eqn:Eall.
  { destruct (waiter s) eqn:Ew.
    - exists WaitClose. split; [done|].
      unfold step, waitClose. rewrite Emain, Ew, Eall. simpl. eauto.
    - exists Collect. split; [done|].
      unfold step, collect, recv. rewrite Emain. simpl.
      apply eq_sym, negb_false_iff in Hwt. rewrite Hwt.
      destruct (buf (resultChan s)); simpl; eauto. }
  assert (∃ i w, workers s !! i = Some w ∧ exited w = false) as (i & w & Hi & Hw).
  { by apply not_all_exited. }
  assert (closed (resultChan s) = false) as Hopen.
  { destruct (closed (resultChan s)) eqn:E; [|done].
    specialize (Hex eq_refl). apply (Forall_lookup_1 _ _ _ _ Hex) in Hi. congruence. }
  assert (∀ got, is_Some (recvJob i got s) ∨
                 ∃ ev, programEvent ev = true ∧ is_Some (step ev s)) as Hrecv.
  { intros got. unfold recvJob, recv.
    destruct (buf (jobChan s)) as [|job jb] eqn:Ebuf; simpl; [|eauto].
    destruct (closed (jobChan s)) eqn:Ecl; simpl; [eauto|].
    right. exists (Dispatch false). split; [done|].
    unfold step, dispatch, send. rewrite Emain. simpl.
    destruct (dispatcher s) as [[|job rest]|] eqn:Ed; simpl; eauto.
    - rewrite Ebuf, Hcj. simpl. rewrite bool_decide_true by done. simpl. eauto.
    - by destruct Hd as [_ Hd]; specialize (Hd eq_refl). }
  assert (∀ next r, holds w ≠ [] → is_Some (sendResult i next r s)) as Hsend.
  { intros next r Hh. unfold sendResult, send. rewrite Hopen, Hcr.
    rewrite bool_decide_true by (by eapply Conserved_room). simpl. eauto. }
  destruct w; try done.
  - exists (Work i false). split; [done|].
    unfold step, work. rewrite Emain, Hi. simpl. eauto.
  - destruct (Hrecv (λ job, WDrainSend err (failedResult (Z.of_nat i + 1) err job)))
      as [Hr|?]; [|done].
    exists (Work i false). split; [done|].
    unfold step, work. rewrite Emain, Hi. simpl. done.
  - exists (Work i false). split; [done|].
    unfold step, work. rewrite Emain, Hi. simpl. by apply Hsend.
  - destruct (Hrecv (λ job, WGenerate c job (clock s))) as [Hr|?]; [|done].
    exists (Work i false). split; [done|].
    unfold step, work. rewrite Emain, Hi. simpl. done.
  - exists (Work i false). split; [done|].
    unfold step, work. rewrite Emain, Hi. simpl.
    destruct (Generate c (ctxErr s) (Prompt job)). eauto.
  - exists (Work i false). split; [done|].
    unfold step, work. rewrite Emain, Hi. simpl. by apply Hsend.
Qed.

(** The goroutines alone never touch the context. *)
Lemma step_ctxErr ev s s' :
  programEvent ev = true → step ev s = Some s' → ctxErr s' = ctxErr s.
Proof.
  intros Hev Hstep. destruct s as [bp0 ce ck d [jb jn jk] [rb rn rk] ws wt rs m].
  step_inv Hstep; simpl in *; done.
Qed.

(** A cancelled context stays cancelled, with the same error. *)
Lemma step_ctxErr_mono ev s s' e :
  step ev s = Some s' → ctxErr s = Some e → ctxErr s' = Some e.
Proof.
  intros Hstep He. destruct s as [bp0 ce ck d [jb jn jk] [rb rn rk] ws wt rs m].
  simpl in *. subst ce. step_inv Hstep; simpl in *; done.
Qed.

Lemma run_ctxErr_mono evs s s' :
  run evs s = Some s' → ctxErr s' = None → ctxErr s = None.
Proof.
  revert s. induction evs as [|ev evs IH]; intros s Hrun Hn; simpl in *.
  - by simplify_eq.
  - destruct (step ev s) as [s1|] eqn:E; [|done]. simpl in *.
    specialize (IH _ Hrun Hn). destruct (ctxErr s) as [e|] eqn:Ee; [|done].
    by rewrite (step_ctxErr_mono _ _ _ _ E Ee) in IH.
Qed.

(** From every state of a run the goroutines, left to themselves, bring
    [ProcessJobs] to its return. *)
Lemma completes cfg count jobs s :
  Admissible count jobs → Inv cfg count jobs s →
  ∃ evs s', Forall (λ ev, programEvent ev = true) evs
            ∧ run evs s = Some s' ∧ ctxErr s' = ctxErr s
            ∧ is_Some (outcome s').
Proof.
  intros Hadm. remember (measure s) as n eqn:Hn. revert s Hn.
  induction n as [n IH] using lt_wf_ind. intros s -> Hinv.
  destruct (outcome s) as [o|] eqn:Ho.
  { exists [], s. split; [constructor|]. rewrite Ho. by eauto. }
  destruct (progress _ _ _ _ Hadm Hinv Ho) as (ev & Hev & [s1 Hstep]).
  destruct (IH _ (step_measure _ _ _ Hev Hstep) s1 eq_refl) as (evs & s' & ? & ? & Hce & ?).
  { by eapply step_Inv. }
  exists (ev :: evs), s'. split; [by constructor|]. simpl. rewrite Hstep. simpl.
  split; [done|]. split; [|done]. rewrite Hce. by eapply step_ctxErr.
Qed.

Lemma run_Conserved jobs evs s s' :
  run evs s = Some s' → Conserved jobs s → Conserved jobs s'.
Proof.
  apply (run_invariant (Conserved jobs)). intros ev s1 s2. apply step_Conserved.
Qed.

Lemma ProcessJobs_reaches_Inv bp0 ctx now jobs evs s :
  Admissible (workerCount bp0) jobs →
  run evs (ProcessJobs bp0 ctx now jobs) = Some s →
  Inv (config bp0) (workerCount bp0) jobs s.
Proof.
  intros Hadm Hrun. eapply run_Inv; [done..|].
  apply ProcessJobs_Inv. by destruct Hadm.
Qed.

(** ** Cardinality *)

(** C1.  Take a run of [ProcessJobs] over a non-empty job list by a
    processor with at least one worker, under any schedule, any factory and
    any generator, and a state [s] of it in which the context has not been
    cancelled.  If [ProcessJobs] has returned in [s], the jobs of the
    returned results are the submitted jobs, each exactly once, so that
    there are as many results as jobs.  And the run does return: while it
    has not, some goroutine can act; the goroutines can take no more than
    [measure s] further actions; and they bring the run to a return with
    the complete results and a nil error. *)
Theorem one_result_per_job bp0 ctx now jobs evs s :
  jobs ≠ [] → 1 ≤ workerCount bp0 →
  run evs (ProcessJobs bp0 ctx now jobs) = Some s →
  ctxErr s = None →
  (∀ rs err, outcome s = Some (rs, err) →
     Job <$> rs ≡ₚ jobs ∧ length rs = length jobs)
  ∧ (outcome s = None → ∃ ev, programEvent ev = true ∧ is_Some (step ev s))
  ∧ (∀ evs' s', Forall (λ ev, programEvent ev = true) evs' →
       run evs' s = Some s' → (length evs' ≤ measure s)%nat)
  ∧ (∃ evs' s' rs, Forall (λ ev, programEvent ev = true) evs'
       ∧ run evs' s = Some s' ∧ outcome s' = Some (rs, None)
       ∧ Job <$> rs ≡ₚ jobs ∧ length rs = length jobs).
Proof.
  intros Hne Hcount Hrun Hce.
  assert (Admissible (workerCount bp0) jobs) as Hadm by done.
  pose proof (ProcessJobs_reaches_Inv _ _ _ _ _ _ Hadm Hrun) as Hinv.
  assert (∀ s1, Inv (config bp0) (workerCount bp0) jobs s1 → ctxErr s1 = None →
            ∀ rs err, outcome s1 = Some (rs, err) →
            err = None ∧ Job <$> rs ≡ₚ jobs ∧ length rs = length jobs) as Hret.
  { intros s1 [Hs Hc _ Hd Hr] Hce1 rs err Hout. unfold outcome in Hout.
    destruct (main s1) as [| |err'|] eqn:Em; simplify_eq.
    assert (Job <$> results s1 ≡ₚ jobs) as Hperm.
    { eapply collected_all; eauto. by rewrite Em. }
    split; [|split; [done|]].
    - destruct err as [e|]; [|done].
      destruct Hr as [_ He]. specialize (He _ Em). congruence.
    - apply Permutation_length in Hperm. by rewrite length_fmap in Hperm. }
  split_and!.
  - intros rs err Hout. by destruct (Hret _ Hinv Hce _ _ Hout) as (_ & ? & ?).
  - by eapply progress.
  - intros evs' s' Hevs Hrun'. pose proof (run_measure _ _ _ Hevs Hrun'). lia.
  - destruct (completes _ _ _ _ Hadm Hinv) as (evs' & s' & Hevs & Hrun' & Hce' & [[rs err] Ho]).
    rewrite Hce in Hce'.
    destruct (Hret s' (run_Inv _ _ _ _ _ _ Hadm Hrun' Hinv) Hce' _ _ Ho) as (-> & ? & ?).
    by exists evs', s', rs.
Qed.

(** ** Statistics *)

(** C3.  In every state of a run over a non-empty job list (of a length
    that is an [int]), the collector having folded the results [results s]
    received so far: [CompletedJobs] counts those without an error,
    [FailedJobs] those with one, so that their sum is the number of results
    received, and [TotalDuration] is the (64-bit) sum of their durations;
    folding a result that waits in the output channel increments exactly
    one of the two counters, the one its error selects, and adds its
    duration; and once the run has returned with a nil error the sum of the
    counters is [TotalJobs]. *)
Theorem counters_match_results bp0 ctx now jobs evs s :
  jobs ≠ [] → Z.of_nat (length jobs) ≤ MaxInt64 → 1 ≤ workerCount bp0 →
  run evs (ProcessJobs bp0 ctx now jobs) = Some s →
  let st := GetStatistics (bp s) in
  CompletedJobs st + FailedJobs st = Z.of_nat (length (results s))
  ∧ CompletedJobs st = Z.of_nat (countSucceeded (results s))
  ∧ FailedJobs st = Z.of_nat (countFailed (results s))
  ∧ TotalDuration st = wrap64 (sumDurations (results s))
  ∧ (∀ r, r ∈ buf (resultChan s) →
          CompletedJobs (foldResult r st) + FailedJobs (foldResult r st)
          = CompletedJobs st + FailedJobs st + 1
          ∧ (ResultError r = None → FailedJobs (foldResult r st) = FailedJobs st)
          ∧ (ResultError r ≠ None → CompletedJobs (foldResult r st) = CompletedJobs st)
          ∧ TotalDuration (foldResult r st) = wrap64 (TotalDuration st + Duration r))
  ∧ (∀ rs, outcome s = Some (rs, None) →
       CompletedJobs st + FailedJobs st = TotalJobs st).
Proof.
  intros Hne Hlen Hcount Hrun st.
  assert (Admissible (workerCount bp0) jobs) as Hadm by done.
  pose proof (ProcessJobs_reaches_Inv _ _ _ _ _ _ Hadm Hrun) as Hinv.
  assert (Accounted s) as Hacc.
  { eapply run_Accounted; [done..|by apply ProcessJobs_Inv|by apply ProcessJobs_Accounted]. }
  pose proof (Accounted_sum _ Hacc) as Hsum.
  pose proof (count_split (results s)) as Hsplit.
  pose proof (Conserved_length _ _ (inv_conserved _ _ _ _ Hinv)) as Hle.
  destruct Hacc as [Hc Hf Hd _]. subst st. unfold GetStatistics.
  split_and!; try done.
  - intros r Hr. unfold foldResult; simpl.
    assert (0 < length (buf (resultChan s)))%nat
      by (destruct (buf (resultChan s)); [by apply elem_of_nil in Hr|simpl; lia]).
    destruct (ResultError r); simpl; split_and!; try done.
    + rewrite wrap64_id; unfold MinInt64, MaxInt64 in *; lia.
    + rewrite wrap64_id; unfold MinInt64, MaxInt64 in *; lia.
  - intros rs Hout. unfold outcome in Hout.
    destruct (main s) as [| |err|] eqn:Em; simplify_eq.
    destruct (inv_returns _ _ _ _ Hinv) as [Hall _].
    specialize (Hall Em). apply Permutation_length in Hall.
    rewrite length_fmap in Hall.
    rewrite (shape_total _ _ _ _ (inv_shape _ _ _ _ Hinv)). lia.
Qed.

(** C5, amended.  In every state of a run over a non-empty job list,
    [TotalJobs] is the number of submitted jobs; while the collector is
    still in its loop [AverageDuration] is zero, whatever has been
    received; once the collector has left its loop [AverageDuration] is
    [TotalDuration / TotalJobs], the division truncating toward zero and
    the divisor being the number of submitted jobs, so that
    [AverageDuration * TotalJobs] misses [TotalDuration] by less than
    [TotalJobs]; and [finalize] leaves the average alone, dividing nothing,
    when [TotalJobs] is not positive. *)
Theorem average_set_on_finalize bp0 ctx now jobs evs s :
  jobs ≠ [] → Z.of_nat (length jobs) ≤ MaxInt64 → 1 ≤ workerCount bp0 →
  run evs (ProcessJobs bp0 ctx now jobs) = Some s →
  let st := GetStatistics (bp s) in
  TotalJobs st = Z.of_nat (length jobs)
  ∧ (main s = MCollect → AverageDuration st = 0)
  ∧ (main s ≠ MCollect →
       AverageDuration st = TotalDuration st `quot` TotalJobs st
       ∧ Z.abs (TotalDuration st - AverageDuration st * TotalJobs st) < TotalJobs st)
  ∧ (∀ t st', TotalJobs st' ≤ 0 →
       AverageDuration (finalize t st') = AverageDuration st').
Proof.
  intros Hne Hlen Hcount Hrun st.
  assert (Admissible (workerCount bp0) jobs) as Hadm by done.
  pose proof (ProcessJobs_reaches_Inv _ _ _ _ _ _ Hadm Hrun) as Hinv.
  assert (Accounted s) as Hacc.
  { eapply run_Accounted; [done..|by apply ProcessJobs_Inv|by apply ProcessJobs_Accounted]. }
  destruct Hacc as [_ _ _ Havg].
  pose proof (shape_total _ _ _ _ (inv_shape _ _ _ _ Hinv)) as Htot.
  pose proof (shape_no_panic _ _ _ _ (inv_shape _ _ _ _ Hinv)) as Hnp.
  subst st. unfold GetStatistics. split_and!; try done.
  - intros Hm. by rewrite Hm in Havg.
  - intros Hm.
    assert (AverageDuration (stats (bp s))
            = TotalDuration (stats (bp s)) `quot` TotalJobs (stats (bp s))) as Heq
      by (by destruct (main s)).
    split; [done|]. rewrite Heq.
    assert (0 < TotalJobs (stats (bp s))) as Hpos.
    { rewrite Htot. destruct jobs; [done|simpl; lia]. }
    pose proof (Z.quot_rem' (TotalDuration (stats (bp s))) (TotalJobs (stats (bp s)))) as Hqr.
    pose proof (Z.rem_bound_abs (TotalDuration (stats (bp s))) (TotalJobs (stats (bp s)))
                  ltac:(lia)) as Hb.
    lia.
  - intros t st' Hz. unfold finalize; simpl. by rewrite bool_decide_false by lia.
Qed.

(** ** The run-level error *)

Definition cancels (ev : Event) : bool :=
  match ev with
  | CancelCtx _ => true
  | _ => false
  end.

Lemma run_no_cancel evs s s' :
  Forall (λ ev, cancels ev = false) evs → run evs s = Some s' →
  ctxErr s' = ctxErr s.
Proof.
  intros Hevs. revert s. induction Hevs as [|ev evs Hev _ IH]; intros s Hrun.
  - simpl in Hrun. by simplify_eq.
  - simpl in Hrun. destruct (step ev s) as [s1|] eqn:E; [|done]. simpl in Hrun.
    rewrite (IH _ Hrun).
    destruct s as [bp0 ce ck d [jb jn jk] [rb rn rk] ws wt rs m].
    clear IH Hrun. step_inv E; simpl in *; done.
Qed.

(** A step changes [main] only by the collector leaving its loop, by the
    return, or by a panic; the results change only in the loop. *)
Lemma step_main ev s s' :
  step ev s = Some s' →
  (main s' = main s ∧ (main s ≠ MCollect → results s' = results s))
  ∨ (main s = MCollect ∧ main s' = MReturn ∧ results s' = results s)
  ∨ (ev = Collect ∧ main s = MReturn ∧ main s' = MReturned (ctxErr s)
     ∧ results s' = results s)
  ∨ main s' = MPanicked.
Proof.
  intros Hstep. destruct s as [bp0 ce ck d [jb jn jk] [rb rn rk] ws wt rs m].
  step_inv Hstep; simpl in *; subst; eauto 10.
  all: left; split; [done|]; done.
Qed.

(** After the return nothing changes what was returned. *)
Lemma after_return evs s s' e err :
  run evs s = Some s' → main s = MReturned e → main s' = MReturned err →
  e = err ∧ results s' = results s.
Proof.
  revert s. induction evs as [|ev evs IH]; intros s Hrun Hm Hret; simpl in *.
  { simplify_eq. split; congruence. }
  destruct (step ev s) as [s1|] eqn:E; [|done]. simpl in Hrun.
  destruct (step_main _ _ _ E) as [[Hm1 Hr]|[(? & _)|[(_ & ? & _)|Hp]]];
    try congruence.
  - rewrite <-Hr by (by rewrite Hm). apply (IH s1); [done|congruence|done].
  - destruct evs as [|ev' evs]; simpl in Hrun; [simplify_eq; congruence|].
    unfold step in Hrun. by rewrite Hp in Hrun.
Qed.

(** A returned error and the returned results are [ctx.Err()] and
    [results] as they stood when the collector executed [return]. *)
Lemma return_point evs s s' err :
  run evs s = Some s' → (∀ e, main s ≠ MReturned e) → main s' = MReturned err →
  ∃ evs1 evs2 s1, evs = evs1 ++ Collect :: evs2 ∧ run evs1 s = Some s1
                  ∧ main s1 = MReturn ∧ err = ctxErr s1 ∧ results s' = results s1.
Proof.
  revert s. induction evs as [|ev evs IH]; intros s Hrun Hns Hret; simpl in *.
  { simplify_eq. by destruct (Hns err). }
  destruct (step ev s) as [s1|] eqn:E; [|done]. simpl in Hrun.
  destruct (step_main _ _ _ E) as [[Hm _]|[(Hm & Hm' & _)|[(-> & Hm & Hm' & Hrs)|Hp]]].
  - destruct (IH s1 Hrun) as (evs1 & evs2 & s2 & -> & Hrun1 & ? & ? & ?); [|done|].
    { intros e. rewrite Hm. apply Hns. }
    exists (ev :: evs1), evs2, s2. simpl. rewrite E. simpl. done.
  - destruct (IH s1 Hrun) as (evs1 & evs2 & s2 & -> & Hrun1 & ? & ? & ?); [|done|].
    { intros e. by rewrite Hm'. }
    exists (ev :: evs1), evs2, s2. simpl. rewrite E. simpl. done.
  - destruct (after_return _ _ _ _ _ Hrun Hm' Hret) as [<- Hrs'].
    exists [], evs, s. simpl. split_and!; try done. congruence.
  - destruct evs as [|ev' evs]; simpl in Hrun; [simplify_eq; congruence|].
    unfold step in Hrun. by rewrite Hp in Hrun.
Qed.

(** C4, amended.  For a non-empty job list: the error [ProcessJobs] returns
    is [ctx.Err()] as the collector reads it at its [return], the run
    having gone through [evs1] by then, and the results it returns are
    those collected at that point; there are at most as many results as
    jobs; and when nobody cancels the context during the run the error is
    the nil error of the context the run started with, whatever the
    generator and the factory answered. *)
Theorem run_error_is_ctx_error bp0 ctx now jobs evs s rs err :
  jobs ≠ [] →
  run evs (ProcessJobs bp0 ctx now jobs) = Some s →
  outcome s = Some (rs, err) →
  (∃ evs1 evs2 s1, evs = evs1 ++ Collect :: evs2
      ∧ run evs1 (ProcessJobs bp0 ctx now jobs) = Some s1
      ∧ main s1 = MReturn ∧ err = ctxErr s1 ∧ rs = results s1)
  ∧ (length rs ≤ length jobs)%nat
  ∧ (ctx = None → Forall (λ ev, cancels ev = false) evs → err = None).
Proof.
  intros Hne Hrun Hout. unfold outcome in Hout.
  destruct (main s) as [| |err'|] eqn:Em; simplify_eq.
  destruct (return_point _ _ _ err Hrun)
    as (evs1 & evs2 & s1 & -> & Hrun1 & Hm1 & -> & Hrs); [|done|].
  { intros e. unfold ProcessJobs. by rewrite bool_decide_false by (by destruct jobs). }
  split_and!.
  - by exists evs1, evs2, s1.
  - assert (Conserved jobs s) as Hc.
    { eapply run_Conserved; [done|]. by apply ProcessJobs_Inv. }
    apply Conserved_length in Hc. lia.
  - intros -> Hevs. apply Forall_app in Hevs as [Hevs1 _].
    rewrite (run_no_cancel _ _ _ Hevs1 Hrun1). unfold ProcessJobs.
    by rewrite bool_decide_false by (by destruct jobs).
Qed.

(** ** The empty run *)

(** C7.  Whatever the context, [ProcessJobs] on an empty job list has
    returned at once, with no result and a nil error: there is no worker,
    no dispatcher and no waiting goroutine, and no goroutine can act. *)
Theorem empty_run_returns_at_once bp0 ctx now :
  let s := ProcessJobs bp0 ctx now [] in
  outcome s = Some ([], None)
  ∧ workers s = [] ∧ dispatcher s = None ∧ waiter s = false
  ∧ ∀ ev, programEvent ev = true → step ev s = None.
Proof.
  simpl. split_and!; try done.
  intros ev Hev. by destruct ev.
Qed.

(** A run that has nothing to do leaves the processor alone. *)
Lemma idle_run bp0 evs s s' :
  run evs s = Some s' →
  bp s = bp0 ∧ workers s = [] ∧ dispatcher s = None ∧ waiter s = false
  ∧ main s = MReturned None →
  bp s' = bp0 ∧ workers s' = [] ∧ dispatcher s' = None ∧ waiter s' = false
  ∧ main s' = MReturned None.
Proof.
  apply (run_invariant (λ s, bp s = bp0 ∧ workers s = [] ∧ dispatcher s = None
                             ∧ waiter s = false ∧ main s = MReturned None)).
  clear. intros ev s s' Hstep (Hbp & Hw & Hd & Hwt & Hm).
  destruct s as [bp1 ce ck d jc rc ws wt rs m]. simpl in *. subst.
  step_inv Hstep; simpl in *; done.
Qed.

(** C10.  [ProcessJobs] on an empty job list leaves the processor, and so
    every field of its statistics, as it was: at the return and in every
    later state of that call, [GetStatistics] answers what it answered
    before the call. *)
Theorem empty_run_keeps_statistics bp0 ctx now :
  bp (ProcessJobs bp0 ctx now []) = bp0
  ∧ GetStatistics (bp (ProcessJobs bp0 ctx now [])) = GetStatistics bp0
  ∧ ∀ evs s, run evs (ProcessJobs bp0 ctx now []) = Some s →
             GetStatistics (bp s) = GetStatistics bp0.
Proof.
  split_and!; try done.
  intros evs s Hrun.
  destruct (idle_run bp0 _ _ _ Hrun) as [-> _]; done.
Qed.

(** ** The worker count *)

Lemma step_workerCount ev s s' :
  step ev s = Some s' →
  workerCount (bp s') = workerCount (bp s) ∧ config (bp s') = config (bp s).
Proof.
  intros Hstep. destruct s as [bp0 ce ck d [jb jn jk] [rb rn rk] ws wt rs m].
  step_inv Hstep; simpl in *; done.
Qed.

Lemma run_workerCount evs s s' :
  run evs s = Some s' → workerCount (bp s') = workerCount (bp s).
Proof.
  intros Hrun.
  apply (run_invariant (λ s1, workerCount (bp s1) = workerCount (bp s)))
    with (evs := evs) (s := s); [|done|done].
  intros ev s1 s2 Hstep <-. by destruct (step_workerCount _ _ _ Hstep).
Qed.

(** The processors a program can hold: a new one, or one on which
    [ProcessJobs] has been called. *)
Inductive Constructed : BatchProcessor → Prop :=
| constructed_new cfg workerCount :
    Constructed (NewBatchProcessor cfg workerCount)
| constructed_run bp0 ctx now jobs evs s :
    Constructed bp0 →
    run evs (ProcessJobs bp0 ctx now jobs) = Some s →
    Constructed (bp s).

(** C9.  A new processor has at least one worker, exactly one when the
    requested count is not positive and the requested count otherwise; no
    step of a run changes the count; hence every processor a program can
    hold answers a count of at least one, and a run over a non-empty job
    list starts with that many workers, at least one. *)
Theorem worker_count_at_least_one cfg (n : Z) :
  1 ≤ GetWorkerCount (NewBatchProcessor cfg n)
  ∧ (n ≤ 0 → GetWorkerCount (NewBatchProcessor cfg n) = 1)
  ∧ (0 < n → GetWorkerCount (NewBatchProcessor cfg n) = n)
  ∧ (∀ bp0 ctx now jobs evs s,
       run evs (ProcessJobs bp0 ctx now jobs) = Some s →
       GetWorkerCount (bp s) = GetWorkerCount bp0)
  ∧ (∀ bp1, Constructed bp1 →
       1 ≤ GetWorkerCount bp1
       ∧ ∀ ctx now jobs, jobs ≠ [] →
           Z.of_nat (length (workers (ProcessJobs bp1 ctx now jobs)))
           = GetWorkerCount bp1).
Proof.
  assert (∀ bp0 ctx now jobs evs s,
            run evs (ProcessJobs bp0 ctx now jobs) = Some s →
            GetWorkerCount (bp s) = GetWorkerCount bp0) as Hkeep.
  { intros bp0 ctx now jobs evs s Hrun. unfold GetWorkerCount.
    rewrite (run_workerCount _ _ _ Hrun). unfold ProcessJobs.
    by case_bool_decide. }
  unfold GetWorkerCount, NewBatchProcessor in *; simpl.
  split_and!.
  - case_bool_decide; lia.
  - intros ?. by rewrite bool_decide_true.
  - intros ?. by rewrite bool_decide_false by lia.
  - done.
  - intros bp1 Hc.
    assert (1 ≤ workerCount bp1) as Hone.
    { induction Hc as [cfg' n'|bp0 ctx now jobs evs s _ IH Hrun].
      - simpl. case_bool_decide; lia.
      - by rewrite (Hkeep _ _ _ _ _ _ Hrun). }
    split; [done|]. intros ctx now jobs Hne. unfold ProcessJobs.
    rewrite bool_decide_false by (by destruct jobs). simpl.
    rewrite length_replicate. lia.
Qed.

(** ** A worker without a client *)

(** The result worker [me] is about to send. *)
Definition inHand (me : nat) (s : Run) : list BatchResult :=
  match workers s !! me with
  | Some (WDrainSend _ r) | Some (WSend _ r) => [r]
  | _ => []
  end.

(** The results that carry the identifier of worker [me], in the order in
    which it produced them: collected, waiting in the output channel, or
    still in its hand. *)
Definition emitted (me : nat) (s : Run) : list BatchResult :=
  filter (λ r, Worker r = Z.of_nat me + 1) (results s ++ buf (resultChan s))
  ++ inHand me s.

(** The job worker [me] takes from the intake channel by the action [ev]. *)
Definition receives (me : nat) (ev : Event) (s : Run) : list BatchJob :=
  match ev with
  | Work i false =>
      if bool_decide (i = me) then
        match workers s !! me, buf (jobChan s) with
        | Some (WDrain _), job :: _ | Some (WSelect _), job :: _ => [job]
        | _, _ => []
        end
      else []
  | _ => []
  end.

(** The jobs worker [me] takes along a run, in order. *)
Fixpoint received (me : nat) (evs : list Event) (s : Run) : list BatchJob :=
  match evs with
  | [] => []
  | ev :: evs =>
      match step ev s with
      | Some s' => receives me ev s ++ received me evs s'
      | None => []
      end
  end.

Lemma step_emitted cfg count jobs me err ev s s' :
  Shape cfg count jobs s → Provenance cfg s →
  GetClient (Z.of_nat me + 1) cfg false = inr err →
  step ev s = Some s' →
  emitted me s' = emitted me s ++ (failedResult (Z.of_nat me + 1) err <$> receives me ev s).
Proof.
  intros [Hcfg _ _ _ _ _ _ Hex _ _] [Hw Hr] Hme Hstep.
  destruct s as [[cfg0 n0 st0] ce ck d [jb jn jk] [rb rn rk] ws wt rs m].
  simpl in *. subst cfg0.
  step_inv Hstep.
  all: unfold emitted, inHand, receives, set_main, set_worker, set_jobChan,
         set_resultChan, set_dispatcher;
       cbn [workers results resultChan jobChan buf fmap list_fmap].
  all: rewrite ?app_nil_r; try done.
  all: try match goal with
    | Hi : _ !! ?k = Some _ |- context [filter (λ r, Worker r = Z.of_nat ?m + 1)] =>
        pose proof (Hw _ _ Hi) as Hold; simpl in Hold;
        pose proof (lookup_lt_Some _ _ _ Hi) as Hlt;
        try (destruct (decide (k = m)) as [Heq|Hne]; [subst k|]; try done)
    end.
  all: rewrite ?bool_decide_true by done; rewrite ?bool_decide_false by done;
       rewrite ?list_lookup_insert_eq by done;
       rewrite ?list_lookup_insert_ne by done.
  all: repeat match goal with
    | Hi : ?l !! ?k = Some _ |- context [?l !! ?k] => rewrite Hi
    end.
  all: rewrite ?app_nil_r; try done.
  all: try (by match goal with
            | H1 : GetClient ?a ?b ?c = _, H2 : GetClient ?a ?b ?c = _ |- _ =>
                rewrite H1 in H2
            | H1 : GetClient ?a ?b ?c = _, H2 : GetClient ?a ?b ?c = _ ∧ _ |- _ =>
                rewrite H1 in H2; destruct H2
            end).
  all: try (by rewrite <-app_assoc).
  all: try (by replace err0 with err by congruence).
  all: destruct Hold as [_ [HW _]]; rewrite (app_assoc rs), filter_app.
  all: rewrite filter_cons, filter_nil; case_decide; try lia.
  all: by rewrite ?app_nil_r.
Qed.

Lemma run_emitted cfg count jobs me err evs s s' :
  Admissible count jobs → Inv cfg count jobs s →
  GetClient (Z.of_nat me + 1) cfg false = inr err →
  run evs s = Some s' →
  emitted me s' = emitted me s ++ (failedResult (Z.of_nat me + 1) err <$> received me evs s).
Proof.
  intros Hadm Hinv Hme. revert s Hinv.
  induction evs as [|ev evs IH]; intros s Hinv Hrun; simpl in *.
  - simplify_eq. by rewrite app_nil_r.
  - destruct (step ev s) as [s1|] eqn:E; [|done]. simpl in Hrun.
    rewrite (IH s1); [|by eapply step_Inv|done].
    destruct Hinv as [Hs _ Hp _ _].
    rewrite (step_emitted _ _ _ _ _ _ _ _ Hs Hp Hme E).
    by rewrite fmap_app, app_assoc.
Qed.

(** What a worker does depends on its own state, the channels, the
    context and the clock, never on where another worker stands. *)
Lemma work_frame me w k viaDone s :
  k ≠ me →
  step (Work k viaDone) (set_worker me w s)
  = set_worker me w <$> step (Work k viaDone) s.
Proof.
  intros Hne. destruct s as [bp1 ce ck d [jb jn jk] [rb rn rk] ws wt rs m].
  unfold step, set_worker; cbn [main workers]. destruct (panicked m); [done|].
  unfold work; cbn [workers]. rewrite list_lookup_insert_ne by done.
  destruct (ws !! k) as [wk|]; [|done]. cbn [mbind option_bind].
  destruct wk, viaDone; try done;
    unfold recvJob, sendResult, onCtxDone, recv, send, set_worker, set_main,
      set_jobChan, set_resultChan; simpl;
    repeat case_match; simpl; simplify_eq;
    try done; do 2 f_equal; by apply list_insert_insert_ne.
Qed.

(** C2.  Take a run over a non-empty job list, cancelled or not, and a
    worker [me] whose factory call failed with [err].  In every state of
    the run:

    - the worker has not aborted: it stands before its factory call, at the
      [range] over the intake channel, at the send of a substitute result,
      or has returned, and it has returned only if the intake channel is
      closed and empty; it cannot take the [ctx.Done()] exit;
    - it can always go on: from its start it enters the loop; whenever a
      job waits in the intake channel its receive takes the oldest one and
      turns it into the substitute result, whatever the context; its send
      of that result never blocks and never panics; and on the closed and
      drained channel it returns;
    - the results that carry its identifier are, in order, the substitute
      results of the jobs it has received so far, one for each, and each
      of them reports the client-construction failure;
    - where it stands changes nothing to what any other worker can do;
    - the goroutines can always bring the run to its return, and when
      [ProcessJobs] has returned the worker has returned, leaving the
      intake channel closed and empty, and the returned results that carry
      its identifier are the substitute results of all the jobs it
      received. *)
Theorem clientless_worker_drains bp0 ctx now jobs evs s me err :
  jobs ≠ [] → 1 ≤ workerCount bp0 →
  run evs (ProcessJobs bp0 ctx now jobs) = Some s →
  GetClient (Z.of_nat me + 1) (config bp0) false = inr err →
  (workers s !! me = Some WExit →
     closed (jobChan s) = true ∧ buf (jobChan s) = [])
  ∧ step (Work me true) s = None
  ∧ emitted me s
    = failedResult (Z.of_nat me + 1) err
      <$> received me evs (ProcessJobs bp0 ctx now jobs)
  ∧ (∀ r, r ∈ emitted me s →
       ResultError r = Some (Errorf_w "failed to create LLM client: " err)
       ∧ Worker r = Z.of_nat me + 1)
  ∧ (∀ k viaDone w, k ≠ me →
       step (Work k viaDone) (set_worker me w s)
       = set_worker me w <$> step (Work k viaDone) s)
  ∧ (Z.of_nat me < workerCount bp0 →
     ∃ w, workers s !! me = Some w
          ∧ (w = WStart ∨ w = WDrain err
             ∨ (∃ job, w = WDrainSend err
                             (failedResult (Z.of_nat me + 1) err job))
             ∨ w = WExit))
  ∧ (workers s !! me = Some WStart →
     step (Work me false) s = Some (set_worker me (WDrain err) s))
  ∧ (workers s !! me = Some (WDrain err) →
     (∀ job rest, buf (jobChan s) = job :: rest →
        step (Work me false) s
        = Some (set_jobChan
                  (mkChan rest (cap (jobChan s)) (closed (jobChan s)))
                  (set_worker me
                     (WDrainSend err (failedResult (Z.of_nat me + 1) err job))
                     s)))
     ∧ (buf (jobChan s) = [] → closed (jobChan s) = true →
        step (Work me false) s = Some (set_worker me WExit s)))
  ∧ (∀ r, workers s !! me = Some (WDrainSend err r) →
     step (Work me false) s
     = Some (set_resultChan
               (mkChan (buf (resultChan s) ++ [r]) (cap (resultChan s))
                       (closed (resultChan s)))
               (set_worker me (WDrain err) s)))
  ∧ (∃ evs' s', Forall (λ ev, programEvent ev = true) evs'
                ∧ run evs' s = Some s' ∧ is_Some (outcome s'))
  ∧ (is_Some (outcome s) →
     (∀ w, workers s !! me = Some w → w = WExit)
     ∧ (is_Some (workers s !! me) →
        closed (jobChan s) = true ∧ buf (jobChan s) = [])
     ∧ filter (λ r, Worker r = Z.of_nat me + 1) (results s)
       = failedResult (Z.of_nat me + 1) err
         <$> received me evs (ProcessJobs bp0 ctx now jobs)).
Proof.
  intros Hne Hcount Hrun Hme.
  assert (Admissible (workerCount bp0) jobs) as Hadm by done.
  pose proof (ProcessJobs_Inv bp0 ctx now jobs Hne) as Hinv0.
  pose proof (run_Inv _ _ _ _ _ _ Hadm Hrun Hinv0) as Hinv.
  pose proof (run_emitted _ _ _ _ _ _ _ _ Hadm Hinv0 Hme Hrun) as Hem.
  assert (emitted me (ProcessJobs bp0 ctx now jobs) = []) as Hinit.
  { unfold ProcessJobs. rewrite bool_decide_false by (by destruct jobs).
    unfold emitted, inHand; simpl.
    destruct (replicate _ _ !! me) as [w|] eqn:E; [|done].
    by apply lookup_replicate in E as [-> _]. }
  rewrite Hinit in Hem. simpl in Hem.
  pose proof (inv_shape _ _ _ _ Hinv) as Hshape.
  destruct Hshape as [Hcfg _ Hws [Hcj Hcr] _ Hnp _ Hex _ Hm].
  assert (panicked (main s) = false) as Hpan by (by destruct (main s)).
  pose proof (prov_workers _ _ (inv_provenance _ _ _ _ Hinv) me) as Hok.
  split_and!.
  - intros Hexit. apply (inv_drained _ _ _ _ Hinv me Hexit). eauto.
  - unfold step. rewrite Hpan. unfold work.
    destruct (workers s !! me) as [w|] eqn:E; [|done]. simpl.
    specialize (Hok _ eq_refl).
    destruct w; simpl in *; try done; destruct_and?; congruence.
  - done.
  - intros r Hr. rewrite Hem in Hr.
    apply list_elem_of_fmap in Hr as (job & -> & _). done.
  - intros k v w Hk. by apply work_frame.
  - intros Hlt. destruct (lookup_lt_is_Some_2 (workers s) me) as [w Hw].
    { rewrite Hws. lia. }
    exists w. split; [done|]. specialize (Hok _ Hw).
    destruct w as [|e|e r|c|c job start|c r|]; simpl in Hok.
    + by left.
    + right; left. congruence.
    + right; right; left. destruct Hok as [He [_ Hr]].
      rewrite Hme in He, Hr. injection He as <-.
      exists (Job r). by rewrite <-Hr.
    + congruence.
    + congruence.
    + destruct Hok. congruence.
    + by do 3 right.
  - intros Hw. unfold step, work. rewrite Hpan, Hw. simpl.
    by rewrite Hcfg, Hme.
  - intros Hw. split.
    + intros job rest Hb. unfold step, work. rewrite Hpan, Hw. simpl.
      unfold recvJob, recv. by rewrite Hb.
    + intros Hb Hc. unfold step, work. rewrite Hpan, Hw. simpl.
      unfold recvJob, recv. by rewrite Hb, Hc.
  - intros r Hw.
    assert (closed (resultChan s) = false) as Hopen.
    { destruct (closed (resultChan s)) eqn:E; [|done].
      specialize (Hex eq_refl). by apply (Forall_lookup_1 _ _ _ _ Hex) in Hw. }
    assert (length (buf (resultChan s)) < length jobs)%nat as Hroom.
    { by apply (Conserved_room _ _ _ _ (inv_conserved _ _ _ _ Hinv) Hw). }
    unfold step, work. rewrite Hpan, Hw. simpl.
    unfold sendResult, send. rewrite Hopen, Hcr.
    by rewrite bool_decide_true by done.
  - destruct (completes _ _ _ _ Hadm Hinv) as (evs' & s' & ? & ? & _ & ?).
    by exists evs', s'.
  - intros [o Ho]. unfold outcome in Ho.
    destruct (main s) as [| |e|] eqn:Em; try done.
    destruct Hm as [Hc Hb]; [done|]. specialize (Hex Hc).
    assert (∀ w, workers s !! me = Some w → w = WExit) as Hexit.
    { intros w Hw. apply (Forall_lookup_1 _ _ _ _ Hex) in Hw. by destruct w. }
    split_and!.
    + done.
    + intros [w Hw]. rewrite (Hexit _ Hw) in Hw.
      apply (inv_drained _ _ _ _ Hinv me Hw). eauto.
    + rewrite <-Hem. unfold emitted, inHand. rewrite Hb, app_nil_r.
      destruct (workers s !! me) as [w|] eqn:Hw; [|by rewrite app_nil_r].
      rewrite (Hexit _ eq_refl). by rewrite app_nil_r.
Qed.

(** ** Further properties of a run *)

Lemma run_Shape cfg count jobs evs s s' :
  run evs s = Some s' → Shape cfg count jobs s → Shape cfg count jobs s'.
Proof.
  apply (run_invariant (Shape cfg count jobs)). intros ev s1 s2. apply step_Shape.
Qed.

Lemma ProcessJobs_reaches_Shape bp0 ctx now jobs evs s :
  jobs ≠ [] → run evs (ProcessJobs bp0 ctx now jobs) = Some s →
  Shape (config bp0) (workerCount bp0) jobs s.
Proof.
  intros Hne Hrun. eapply run_Shape; [done|]. by apply ProcessJobs_Inv.
Qed.

Lemma ProcessJobs_reaches_Conserved bp0 ctx now jobs evs s :
  jobs ≠ [] → run evs (ProcessJobs bp0 ctx now jobs) = Some s →
  Conserved jobs s.
Proof.
  intros Hne Hrun. eapply run_Conserved; [done|]. by apply ProcessJobs_Inv.
Qed.

(** X1.  No run of [ProcessJobs], over any job list, under any schedule and
    with the context cancelled at any moment, panics on a closed channel:
    the output channel is closed only once every worker has returned, and
    by the waiting goroutine, which is then gone; and the intake channel is
    closed exactly when the dispatcher is gone. *)
Theorem never_sends_on_closed_channel bp0 ctx now jobs evs s :
  run evs (ProcessJobs bp0 ctx now jobs) = Some s →
  main s ≠ MPanicked
  ∧ (closed (resultChan s) = true →
       Forall (λ w, exited w = true) (workers s) ∧ waiter s = false)
  ∧ (jobs ≠ [] → (closed (jobChan s) = true ↔ dispatcher s = None)).
Proof.
  intros Hrun. destruct (decide (jobs = [])) as [->|Hne].
  - destruct (idle_run bp0 _ _ _ Hrun) as (_ & Hw & _ & Hwt & Hm); [done|].
    rewrite Hm, Hw. split_and!; try done.
  - destruct (ProcessJobs_reaches_Shape _ _ _ _ _ _ Hne Hrun)
      as [_ _ _ _ _ Hnp Hwt Hex Hd _].
    split_and!; try done.
    intros Hc. split; [by apply Hex|]. by rewrite Hwt, Hc.
Qed.

(** X2.  In a run over a non-empty job list no send ever blocks on a full
    channel: neither buffer holds more than [len(jobs)] elements, the
    dispatcher with a job to send can send it, and a worker with a result
    to send can send it. *)
Theorem sends_never_block bp0 ctx now jobs evs s :
  jobs ≠ [] →
  run evs (ProcessJobs bp0 ctx now jobs) = Some s →
  (length (buf (jobChan s)) ≤ cap (jobChan s))%nat
  ∧ (length (buf (resultChan s)) ≤ cap (resultChan s))%nat
  ∧ (∀ job rest, dispatcher s = Some (job :: rest) →
       ∃ s', step (Dispatch false) s = Some s'
             ∧ buf (jobChan s') = buf (jobChan s) ++ [job])
  ∧ (∀ i w, workers s !! i = Some w → holds w ≠ [] → exited w = false →
       (∀ client job start, w ≠ WGenerate client job start) →
       ∃ s' r, step (Work i false) s = Some s'
               ∧ buf (resultChan s') = buf (resultChan s) ++ [r]).
Proof.
  intros Hne Hrun.
  pose proof (ProcessJobs_reaches_Shape _ _ _ _ _ _ Hne Hrun) as Hshape.
  pose proof (ProcessJobs_reaches_Conserved _ _ _ _ _ _ Hne Hrun) as Hcons.
  destruct Hshape as [_ _ _ [Hcj Hcr] _ Hnp _ Hex _ _].
  assert (panicked (main s) = false) as Hpan by (by destruct (main s)).
  pose proof Hcons as (lost & Hperm & _).
  apply Permutation_length in Hperm. unfold inFlight in Hperm.
  rewrite !length_app, !length_fmap in Hperm.
  split_and!.
  - lia.
  - lia.
  - intros job rest Hd. unfold step, dispatch, send. rewrite Hpan, Hd. simpl.
    unfold pending in Hperm. rewrite Hd in Hperm. simpl in Hperm.
    rewrite bool_decide_true by lia. simpl. eauto.
  - intros i w Hi Hh Hw Hng.
    assert (closed (resultChan s) = false) as Hopen.
    { destruct (closed (resultChan s)) eqn:E; [|done].
      specialize (Hex eq_refl). apply (Forall_lookup_1 _ _ _ _ Hex) in Hi.
      congruence. }
    pose proof (Conserved_room _ _ _ _ Hcons Hi Hh) as Hroom.
    unfold step, work. rewrite Hpan, Hi. simpl.
    destruct w; try done.
    + unfold sendResult, send. rewrite Hopen, Hcr.
      rewrite bool_decide_true by done. simpl. eauto.
    + by destruct (Hng c job start).
    + unfold sendResult, send. rewrite Hopen, Hcr.
      rewrite bool_decide_true by done. simpl. eauto.
Qed.

(** X3.  In every run, cancelled or not, the jobs of the results collected
    so far and of those waiting in the output channel form a sub-multiset
    of the submitted jobs: no job ever gets two results and no result is
    for a job that was not submitted. *)
Theorem no_job_is_answered_twice bp0 ctx now jobs evs s :
  run evs (ProcessJobs bp0 ctx now jobs) = Some s →
  (Job <$> results s) ++ (Job <$> buf (resultChan s)) ⊆+ jobs.
Proof.
  intros Hrun. destruct (decide (jobs = [])) as [->|Hne].
  - assert ((results s = [] ∧ buf (resultChan s) = [])
            ∧ workers s = [] ∧ main s = MReturned None) as [[-> ->] _]; [|done].
    apply (run_invariant (λ s, (results s = [] ∧ buf (resultChan s) = [])
                               ∧ workers s = [] ∧ main s = MReturned None))
      with (evs := evs) (s := ProcessJobs bp0 ctx now []); [|done|done].
    clear. intros ev s s' Hstep ([Hr Hb] & Hw & Hm).
    destruct s as [bp1 ce ck d jc [rb rn rk] ws wt rs m]. simpl in *. subst.
    step_inv Hstep; simpl in *; done.
  - destruct (ProcessJobs_reaches_Conserved _ _ _ _ _ _ Hne Hrun)
      as (lost & Hperm & _).
    rewrite Hperm. unfold inFlight. solve_submseteq.
Qed.

Lemma ProcessJobs_reaches_Provenance bp0 ctx now jobs evs s :
  jobs ≠ [] →
  run evs (ProcessJobs bp0 ctx now jobs) = Some s →
  Provenance (config bp0) s.
Proof.
  intros Hne Hrun.
  cut (Shape (config bp0) (workerCount bp0) jobs s ∧ Provenance (config bp0) s);
    [tauto|].
  apply (run_invariant (λ s, Shape (config bp0) (workerCount bp0) jobs s
                             ∧ Provenance (config bp0) s))
    with (evs := evs) (s := ProcessJobs bp0 ctx now jobs); [|done|].
  - intros ev s1 s2 Hstep [Hs Hp]. split; [by eapply step_Shape|].
    by eapply step_Provenance.
  - by destruct (ProcessJobs_Inv bp0 ctx now jobs Hne).
Qed.

(** X4.  In a run over a non-empty job list every result, collected or
    waiting in the output channel, belongs to a submitted job, carries the
    identifier of one of the workers of the run (a number from 1 to the
    worker count) and is what that worker makes of the job: the substitute
    result if the factory gave the worker no client, and otherwise the
    response and the error its client returned for the prompt of this very
    job, the call having seen the context uncancelled if it still is. *)
Theorem results_come_from_their_worker bp0 ctx now jobs evs s r :
  jobs ≠ [] →
  run evs (ProcessJobs bp0 ctx now jobs) = Some s →
  r ∈ results s ++ buf (resultChan s) →
  Job r ∈ jobs
  ∧ 1 ≤ Worker r ≤ GetWorkerCount bp0
  ∧ match GetClient (Worker r) (config bp0) false with
    | inr err => r = failedResult (Worker r) err (Job r)
    | inl client =>
        ∃ ce', (ctxErr s = None → ce' = None)
               ∧ (Response r, ResultError r)
                 = Generate client ce' (Prompt (Job r))
    end.
Proof.
  intros Hne Hrun Hr.
  pose proof (ProcessJobs_reaches_Shape _ _ _ _ _ _ Hne Hrun) as Hshape.
  destruct (ProcessJobs_reaches_Conserved _ _ _ _ _ _ Hne Hrun)
    as (lost & Hperm & _).
  destruct (ProcessJobs_reaches_Provenance _ _ _ _ _ _ Hne Hrun) as [_ Hres].
  rewrite Forall_forall in Hres.
  destruct (Hres r) as (i & Hi & Hw & Hfrom).
  { apply elem_of_app. apply elem_of_app in Hr. tauto. }
  rewrite (shape_workers _ _ _ _ Hshape) in Hi. unfold GetWorkerCount.
  split_and!; [|lia|lia|by rewrite Hw].
  rewrite Hperm. unfold inFlight. rewrite !elem_of_app, !list_elem_of_fmap.
  apply elem_of_app in Hr. left. do 3 right.
  destruct Hr; [right|left]; by exists r.
Qed.

Lemma ProcessJobs_reaches_Accounted bp0 ctx now jobs evs s :
  jobs ≠ [] → Z.of_nat (length jobs) ≤ MaxInt64 → 1 ≤ workerCount bp0 →
  run evs (ProcessJobs bp0 ctx now jobs) = Some s → Accounted s.
Proof.
  intros Hne Hlen Hcount Hrun.
  eapply run_Accounted;
    [split; [exact Hne|exact Hcount]|exact Hlen|exact Hrun
    |by apply ProcessJobs_Inv|by apply ProcessJobs_Accounted].
Qed.

Lemma countSucceeded_none rs :
  Forall (λ r, succeeded r = false) rs → countSucceeded rs = 0%nat.
Proof.
  unfold countSucceeded. induction 1 as [|r rs Hr _ IH]; [done|].
  rewrite filter_cons_False; [done|]. by rewrite Hr.
Qed.

(** X5.  When the factory fails for every worker, every result of a run
    over a non-empty job list is a substitute result: it reports the
    client-construction failure, has an empty response and a zero
    duration; no job is ever counted as completed; and a run that returns
    a nil error has counted every job as failed. *)
Theorem all_results_fail_without_clients bp0 ctx now jobs evs s :
  jobs ≠ [] → Z.of_nat (length jobs) ≤ MaxInt64 → 1 ≤ workerCount bp0 →
  (∀ workerID, ∃ err, GetClient workerID (config bp0) false = inr err) →
  run evs (ProcessJobs bp0 ctx now jobs) = Some s →
  (∀ r, r ∈ results s ++ buf (resultChan s) →
     ∃ err, GetClient (Worker r) (config bp0) false = inr err
            ∧ ResultError r = Some (Errorf_w "failed to create LLM client: " err)
            ∧ Response r = "" ∧ Duration r = 0)
  ∧ GetProcessedCount (bp s) = 0
  ∧ GetErrorCount (bp s) = Z.of_nat (length (results s))
  ∧ (∀ rs, outcome s = Some (rs, None) →
       GetErrorCount (bp s) = Z.of_nat (length jobs)).
Proof.
  intros Hne Hlen Hcount Hfail Hrun.
  assert (Admissible (workerCount bp0) jobs) as Hadm by done.
  pose proof (ProcessJobs_reaches_Inv _ _ _ _ _ _ Hadm Hrun) as Hinv.
  assert (∀ r, r ∈ results s ++ buf (resultChan s) →
     ∃ err, GetClient (Worker r) (config bp0) false = inr err
            ∧ r = failedResult (Worker r) err (Job r)) as Hall.
  { intros r Hr.
    destruct (inv_provenance _ _ _ _ Hinv) as [_ Hres].
    rewrite Forall_forall in Hres.
    destruct (Hres r) as (i & _ & Hw & Hfrom).
    { apply elem_of_app. apply elem_of_app in Hr. tauto. }
    rewrite <-Hw in Hfrom. destruct (Hfail (Worker r)) as [err Herr].
    rewrite Herr in Hfrom. by exists err. }
  assert (countSucceeded (results s) = 0%nat) as Hzero.
  { apply countSucceeded_none, Forall_forall. intros r Hr.
    destruct (Hall r) as (err & _ & ->); [apply elem_of_app; by left|].
    done. }
  pose proof (ProcessJobs_reaches_Accounted _ _ _ _ _ _ Hne Hlen Hcount Hrun)
    as Hacc.
  pose proof (Accounted_sum _ Hacc) as Hsum.
  destruct Hacc as [Hc Hf _ _].
  unfold GetProcessedCount, GetErrorCount.
  split_and!.
  - intros r Hr. destruct (Hall r Hr) as (err & Herr & ->). by exists err.
  - by rewrite Hc, Hzero.
  - rewrite Hc, Hzero in Hsum. lia.
  - intros rs Hout. unfold outcome in Hout.
    destruct (main s) as [| |err|] eqn:Em; simplify_eq.
    destruct (inv_returns _ _ _ _ Hinv) as [Hperm _].
    specialize (Hperm Em). apply Permutation_length in Hperm.
    rewrite length_fmap in Hperm.
    rewrite Hc, Hzero in Hsum. lia.
Qed.

Lemma step_results_prefix ev s s' :
  step ev s = Some s' → results s `prefix_of` results s'.
Proof.
  intros Hstep. destruct s as [bp1 ce ck d [jb jn jk] [rb rn rk] ws wt rs m].
  step_inv Hstep; simpl; try done. by apply prefix_app_r.
Qed.

Lemma run_results_prefix evs s s' :
  run evs s = Some s' → results s `prefix_of` results s'.
Proof.
  revert s. induction evs as [|ev evs IH]; intros s Hrun; simpl in *.
  - by simplify_eq.
  - destruct (step ev s) as [s1|] eqn:E; [|done]. simpl in Hrun.
    etrans; [by eapply step_results_prefix|by apply IH].
Qed.

Lemma counts_prefix rs rs' :
  rs `prefix_of` rs' →
  (countSucceeded rs ≤ countSucceeded rs')%nat
  ∧ (countFailed rs ≤ countFailed rs')%nat.
Proof.
  intros [k ->]. unfold countSucceeded, countFailed.
  rewrite !filter_app, !length_app. lia.
Qed.

(** X6.  Along a run over a non-empty job list the two progress counters
    [GetProcessedCount] and [GetErrorCount] never decrease, are never
    negative, and together never exceed the number of submitted jobs, which
    is what [TotalJobs] shows: the progress a caller computes from a
    snapshot stays between 0 and 100 per cent and never goes back. *)
Theorem progress_never_goes_back bp0 ctx now jobs evs1 evs2 s1 s2 :
  jobs ≠ [] → Z.of_nat (length jobs) ≤ MaxInt64 → 1 ≤ workerCount bp0 →
  run evs1 (ProcessJobs bp0 ctx now jobs) = Some s1 →
  run evs2 s1 = Some s2 →
  0 ≤ GetProcessedCount (bp s1) ≤ GetProcessedCount (bp s2)
  ∧ 0 ≤ GetErrorCount (bp s1) ≤ GetErrorCount (bp s2)
  ∧ GetProcessedCount (bp s2) + GetErrorCount (bp s2)
    ≤ TotalJobs (GetStatistics (bp s2))
  ∧ TotalJobs (GetStatistics (bp s2)) = Z.of_nat (length jobs).
Proof.
  intros Hne Hlen Hcount Hrun1 Hrun2.
  assert (run (evs1 ++ evs2) (ProcessJobs bp0 ctx now jobs) = Some s2) as Hrun.
  { rewrite run_app, Hrun1. done. }
  destruct (ProcessJobs_reaches_Accounted _ _ _ _ _ _ Hne Hlen Hcount Hrun1)
    as [Hc1 Hf1 _ _].
  destruct (ProcessJobs_reaches_Accounted _ _ _ _ _ _ Hne Hlen Hcount Hrun)
    as [Hc2 Hf2 _ _].
  pose proof (count_split (results s2)) as Hsplit.
  pose proof (counts_prefix _ _ (run_results_prefix _ _ _ Hrun2)) as [Hle1 Hle2].
  pose proof (ProcessJobs_reaches_Shape _ _ _ _ _ _ Hne Hrun) as Hshape.
  pose proof (Conserved_length _ _
                (ProcessJobs_reaches_Conserved _ _ _ _ _ _ Hne Hrun)) as Hres.
  unfold GetStatistics, GetProcessedCount, GetErrorCount in *.
  rewrite (shape_total _ _ _ _ Hshape). lia.
Qed.

(** X7.  A run over a non-empty job list returns whatever happens to the
    context: in every state in which [ProcessJobs] has not returned some
    goroutine can act, the goroutines can take at most [measure s] further
    actions, and they bring the run to its return; and when [ProcessJobs]
    has returned, every worker has returned, the waiting goroutine is gone
    and no result is left in the output channel. *)
Theorem returns_whatever_the_context bp0 ctx now jobs evs s :
  jobs ≠ [] → 1 ≤ workerCount bp0 →
  run evs (ProcessJobs bp0 ctx now jobs) = Some s →
  (outcome s = None → ∃ ev, programEvent ev = true ∧ is_Some (step ev s))
  ∧ (∀ evs' s', Forall (λ ev, programEvent ev = true) evs' →
       run evs' s = Some s' → (length evs' ≤ measure s)%nat)
  ∧ (∃ evs' s', Forall (λ ev, programEvent ev = true) evs'
       ∧ run evs' s = Some s' ∧ ctxErr s' = ctxErr s ∧ is_Some (outcome s'))
  ∧ (is_Some (outcome s) →
       Forall (λ w, exited w = true) (workers s) ∧ waiter s = false
       ∧ buf (resultChan s) = []).
Proof.
  intros Hne Hcount Hrun.
  assert (Admissible (workerCount bp0) jobs) as Hadm by done.
  pose proof (ProcessJobs_reaches_Inv _ _ _ _ _ _ Hadm Hrun) as Hinv.
  split_and!.
  - by eapply progress.
  - intros evs' s' Hevs Hrun'. pose proof (run_measure _ _ _ Hevs Hrun'). lia.
  - by eapply completes.
  - intros [o Ho]. unfold outcome in Ho.
    destruct (inv_shape _ _ _ _ Hinv) as [_ _ _ _ _ _ Hwt Hex _ Hm].
    destruct (main s) eqn:Em; simplify_eq.
    destruct Hm as [Hc Hb]; [done|].
    split_and!; [by apply Hex| by rewrite Hwt, Hc|done].
Qed.

Lemma step_WorkerCount ev s s' :
  step ev s = Some s' →
  WorkerCount (stats (bp s)) = workerCount (bp s) →
  WorkerCount (stats (bp s')) = workerCount (bp s').
Proof.
  intros Hstep. destruct s as [[cfg0 n0 st0] ce ck d [jb jn jk] [rb rn rk] ws wt rs m].
  step_inv Hstep; simpl in *; done.
Qed.

(** X8.  The worker count shown by the statistics is the worker count of
    the processor: [GetStatistics().WorkerCount] equals [GetWorkerCount()]
    for a new processor and in every state of every run of a processor a
    program can hold, empty runs included. *)
Theorem statistics_show_the_worker_count bp1 :
  Constructed bp1 →
  WorkerCount (GetStatistics bp1) = GetWorkerCount bp1
  ∧ ∀ ctx now jobs evs s,
      run evs (ProcessJobs bp1 ctx now jobs) = Some s →
      WorkerCount (GetStatistics (bp s)) = GetWorkerCount (bp s).
Proof.
  unfold GetStatistics, GetWorkerCount.
  assert (∀ bp0 : BatchProcessor,
            WorkerCount (stats bp0) = workerCount bp0 →
            ∀ ctx now jobs evs s,
              run evs (ProcessJobs bp0 ctx now jobs) = Some s →
              WorkerCount (stats (bp s)) = workerCount (bp s)) as Hkeep.
  { intros bp0 H0 ctx now jobs evs s Hrun.
    apply (run_invariant (λ s, WorkerCount (stats (bp s)) = workerCount (bp s)))
      with (evs := evs) (s := ProcessJobs bp0 ctx now jobs); [|done|].
    - intros ev s1 s2. apply step_WorkerCount.
    - unfold ProcessJobs. by case_bool_decide. }
  intros Hc.
  assert (WorkerCount (stats bp1) = workerCount bp1) as H1.
  { induction Hc as [cfg n|bp0 ctx now jobs evs s _ IH Hrun]; [done|].
    by eapply Hkeep. }
  split; [done|]. by apply Hkeep.
Qed.

(** ** A single worker *)

(** With one worker the jobs travel in a line: what has been collected,
    what waits in the output channel, what the worker holds, what waits in
    the input channel and what the dispatcher has still to send are, in
    this order, an initial segment of the submitted jobs. *)
Definition Ordered (jobs : list BatchJob) (s : Run) : Prop :=
  ∃ w post,
    workers s = [w]
    ∧ jobs = (Job <$> results s) ++ (Job <$> buf (resultChan s)) ++ post
    ∧ (exited w = false →
       ∃ post', post = holds w ++ buf (jobChan s) ++ pending s ++ post').

Lemma step_Ordered jobs ev s s' :
  step ev s = Some s' → Ordered jobs s → Ordered jobs s'.
Proof.
  intros Hstep (w & post & Hws & Hjobs & Hpost).
  destruct s as [bp0 ce ck d [jb jn jk] [rb rn rk] ws wt rs m].
  unfold Ordered, pending in *; simpl in *. subst ws.
  step_inv Hstep; simpl in *.
  all: try (by exists w, post).
  all: try match goal with
    | H : [_] !! ?i = Some _ |- _ =>
        destruct i as [|i]; [|done]; simpl in H; simplify_eq; simpl in *
    end.
  all: try (destruct (Hpost eq_refl) as [post' Hp']; simpl in Hp'; subst post).
  all: rewrite ?fmap_app; simpl.
  all: eexists _, _; split; [done|].
  all: split; [rewrite <-?app_assoc; simpl; reflexivity|].
  all: intros Hex; try done.
  all: try (destruct (Hpost Hex) as [post' Hp']).
  all: try (eexists; rewrite <-?app_assoc; simpl; reflexivity).
  all: try (eexists; rewrite Hp', <-?app_assoc; simpl; reflexivity).
Qed.

(** X9.  A processor with one worker answers the jobs in the order of
    submission: at every point of a run over a non-empty job list the jobs
    of the results collected so far, followed by those of the results
    waiting in the output channel, are an initial segment of the job list;
    so the results [ProcessJobs] returns are in submission order, and with
    a nil error their jobs are the job list itself. *)
Theorem one_worker_keeps_the_order bp0 ctx now jobs evs s :
  jobs ≠ [] → workerCount bp0 = 1 →
  run evs (ProcessJobs bp0 ctx now jobs) = Some s →
  (Job <$> results s ++ buf (resultChan s)) `prefix_of` jobs
  ∧ ∀ rs err, outcome s = Some (rs, err) →
      (Job <$> rs) `prefix_of` jobs ∧ (err = None → Job <$> rs = jobs).
Proof.
  intros Hne Hone Hrun.
  assert (Ordered jobs s) as (w & post & _ & Hjobs & _).
  { apply (run_invariant (Ordered jobs))
      with (evs := evs) (s := ProcessJobs bp0 ctx now jobs); [|done|].
    - intros ev s1 s2. apply step_Ordered.
    - unfold ProcessJobs. rewrite bool_decide_false by (by destruct jobs).
      rewrite Hone. exists WStart, jobs. split_and!; [done..|].
      intros _. exists []. simpl. by rewrite app_nil_r. }
  split.
  - rewrite fmap_app. exists post. by rewrite <-app_assoc.
  - intros rs err Hout. unfold outcome in Hout. revert Hjobs.
    destruct (main s) as [| |err'|] eqn:Em; simplify_eq. intros Hjobs.
    split; [by eexists|]. intros ->.
    assert (Admissible (workerCount bp0) jobs) as Hadm by (split; [done|lia]).
    pose proof (ProcessJobs_reaches_Inv _ _ _ _ _ _ Hadm Hrun) as Hinv.
    destruct (inv_returns _ _ _ _ Hinv) as [Hperm _].
    specialize (Hperm Em). apply Permutation_length in Hperm.
    pose proof (f_equal length Hjobs) as Hlen. rewrite !length_app in Hlen.
    destruct (Job <$> buf (resultChan s)) as [|? ?]; [|simpl in Hlen; lia].
    destruct post as [|? ?]; [|simpl in Hlen; lia].
    by rewrite Hjobs, !app_nil_r.
Qed.

(** ** Clock readings *)

(** What a worker remembers of the clock: the start time of the call it is
    in, or the duration in the result it is about to send. *)
Definition timedWorker (now : Z) (w : WorkerState) : Prop :=
  match w with
  | WGenerate _ _ start => start ≤ now
  | WDrainSend _ r | WSend _ r => 0 ≤ Duration r ≤ MaxInt64
  | _ => True
  end.

(** The clock never runs backwards, so a start time read earlier is not
    later than the clock, and the durations measured are not negative. *)
Record Timed (now : Z) (s : Run) : Prop := {
  timed_start : StartTime (stats (bp s)) = now ∧ now ≤ clock s;
  timed_workers : ∀ i w, workers s !! i = Some w → timedWorker (clock s) w;
  timed_results :
    Forall (λ r, 0 ≤ Duration r ≤ MaxInt64) (results s ++ buf (resultChan s));
  timed_end :
    match main s with
    | MReturn | MReturned _ => now ≤ EndTime (stats (bp s)) ≤ clock s
    | _ => True
    end
}.

Lemma Since_nonneg start now : start ≤ now → 0 ≤ Since start now ≤ MaxInt64.
Proof. unfold Since, MinInt64, MaxInt64. lia. Qed.

Lemma step_Timed now ev s s' :
  step ev s = Some s' → Timed now s → Timed now s'.
Proof.
  intros Hstep [[Hst Hck] Hws Hres Hend].
  destruct s as [[cfg0 n0 st0] ce ck d [jb jn jk] [rb rn rk] ws wt rs m].
  simpl in *.
  step_inv Hstep; simpl in *.
  all: split; simpl; try done.
  all: try (split; [done|lia]).
  all: try match goal with
    | Hi : _ !! _ = Some _ |- _ => pose proof (Hws _ _ Hi) as Hold; simpl in Hold
    end.
  all: try (intros j w' Hj; apply list_lookup_insert_Some in Hj;
            destruct Hj as [(-> & <- & _)|[_ Hj]]; [simpl|by eapply Hws]).
  all: try done.
  all: try (by apply Since_nonneg).
  all: try (unfold MaxInt64; lia).
  all: try (intros i w Hi; specialize (Hws i w Hi); destruct w; simpl in *; lia).
  all: try (destruct m; try done; lia).
  all: try (rewrite ?app_assoc, ?Forall_app, ?Forall_singleton in *; tauto).
  by rewrite <-app_assoc.
Qed.

(** X10.  The clock not running backwards, no result of a run over a
    non-empty job list has a negative duration (nor one beyond an int64),
    the statistics keep the time [ProcessJobs] was called at as
    [StartTime], and once [ProcessJobs] has returned [EndTime] is not
    before [StartTime]: the wall-clock time of the report is not
    negative. *)
Theorem durations_are_not_negative bp0 ctx now jobs evs s :
  jobs ≠ [] →
  run evs (ProcessJobs bp0 ctx now jobs) = Some s →
  Forall (λ r, 0 ≤ Duration r ≤ MaxInt64) (results s ++ buf (resultChan s))
  ∧ StartTime (GetStatistics (bp s)) = now
  ∧ (is_Some (outcome s) →
     StartTime (GetStatistics (bp s)) ≤ EndTime (GetStatistics (bp s)) ≤ clock s).
Proof.
  intros Hne Hrun.
  assert (Timed now s) as [[Hst Hck] _ Hres Hend].
  { apply (run_invariant (Timed now))
      with (evs := evs) (s := ProcessJobs bp0 ctx now jobs); [|done|].
    - intros ev s1 s2. apply step_Timed.
    - unfold ProcessJobs. rewrite bool_decide_false by (by destruct jobs).
      split; simpl; [done| |done..].
      intros i w Hi. apply lookup_replicate in Hi as [-> _]. done. }
  unfold GetStatistics. split_and!; [done..|].
  intros [o Ho]. unfold outcome in Ho. rewrite Hst.
  by destruct (main s).
Qed.

(** ** A context that only a deadline ends *)

(** [err != nil && err != context.DeadlineExceeded], the test
    [demonstrateBatchProcessing] applies to what [ProcessJobs] returns
    (main.go, line 500). *)
Definition batchFailed (err : option error) : bool :=
  match err with
  | None | Some DeadlineExceeded => false
  | Some _ => true
  end.

Lemma step_deadline_only ev s s' :
  ev ≠ CancelCtx false → step ev s = Some s' →
  batchFailed (ctxErr s) = false
  ∧ (∀ e, main s = MReturned e → batchFailed e = false) →
  batchFailed (ctxErr s') = false
  ∧ (∀ e, main s' = MReturned e → batchFailed e = false).
Proof.
  intros Hev Hstep [Hce Hm].
  destruct s as [bp1 ce ck d [jb jn jk] [rb rn rk] ws wt rs m].
  simpl in *.
  step_inv Hstep; simpl in *; try done.
  all: split; [done|]; intros; by simplify_eq.
Qed.

(** X11.  [demonstrateBatchProcessing] runs [ProcessJobs] under a context
    that nothing cancels before the return, so that only its deadline can
    end it.  In such a run (whether or not the deadline has already passed
    at the call) [ProcessJobs] returns nil or [context.DeadlineExceeded]:
    the caller's test for any other error never succeeds. *)
Theorem only_a_deadline_error_reaches_the_caller bp0 ctx now jobs evs s rs err :
  batchFailed ctx = false →
  Forall (λ ev, ev ≠ CancelCtx false) evs →
  run evs (ProcessJobs bp0 ctx now jobs) = Some s →
  outcome s = Some (rs, err) →
  batchFailed err = false.
Proof.
  intros Hctx Hevs Hrun Hout.
  assert (∀ s0, run evs s0 = Some s →
            batchFailed (ctxErr s0) = false
            ∧ (∀ e, main s0 = MReturned e → batchFailed e = false) →
            ∀ e, main s = MReturned e → batchFailed e = false) as Hkeep.
  { clear Hrun. induction Hevs as [|ev evs Hev _ IH]; intros s0 Hrun H0; simpl in *.
    - simplify_eq. by destruct H0.
    - destruct (step ev s0) as [s1|] eqn:E; [|done]. simpl in Hrun.
      apply (IH s1 Hrun). by eapply step_deadline_only. }
  unfold outcome in Hout. destruct (main s) as [| |err'|] eqn:Em; simplify_eq.
  apply (Hkeep _ Hrun); [|done].
  unfold ProcessJobs. case_bool_decide; simpl; (split; [done|]).
  - intros e ?. by simplify_eq.
  - done.
Qed.

End Engine.

(** ** Failure isolation *)

Section Isolation.

Context {Config Client : Type}.
Variable GetClient : Z → Config → bool → Client + error.

(** Two generators that answer alike except on the prompts in [changed]. *)
Variables Generate Generate' : Client → option error → string → string * option error.
Variable changed : string → Prop.
Hypothesis unchanged :
  ∀ client ce prompt, ¬ changed prompt →
    Generate client ce prompt = Generate' client ce prompt.

(** Two results for the same job, by the same worker, with the same
    duration, and with the same response and error unless the generator
    was changed for the prompt of the job. *)
Definition simResult (r r' : BatchResult) : Prop :=
  Job r = Job r' ∧ Duration r = Duration r' ∧ Worker r = Worker r'
  ∧ (¬ changed (Prompt (Job r)) →
       Response r = Response r' ∧ ResultError r = ResultError r').

Definition simWorker (w w' : @WorkerState Client) : Prop :=
  match w, w' with
  | WStart, WStart | WExit, WExit => True
  | WDrain err, WDrain err' => err = err'
  | WDrainSend err r, WDrainSend err' r' => err = err' ∧ simResult r r'
  | WSelect c, WSelect c' => c = c'
  | WGenerate c job start, WGenerate c' job' start' =>
      c = c' ∧ job = job' ∧ start = start'
  | WSend c r, WSend c' r' => c = c' ∧ simResult r r'
  | _, _ => False
  end.

(** Two runs that stand at the same point, with [simResult] results. *)
Record simRun (s s' : @Run Config Client) : Prop := {
  sim_config : config (bp s) = config (bp s');
  sim_ctx : ctxErr s = ctxErr s';
  sim_clock : clock s = clock s';
  sim_dispatcher : dispatcher s = dispatcher s';
  sim_jobChan : jobChan s = jobChan s';
  sim_cap : cap (resultChan s) = cap (resultChan s');
  sim_closed : closed (resultChan s) = closed (resultChan s');
  sim_buf : Forall2 simResult (buf (resultChan s)) (buf (resultChan s'));
  sim_workers : Forall2 simWorker (workers s) (workers s');
  sim_waiter : waiter s = waiter s';
  sim_results : Forall2 simResult (results s) (results s');
  sim_main : main s = main s'
}.

Lemma simResult_refl r : simResult r r.
Proof. by repeat split. Qed.

Lemma simWorker_refl w : simWorker w w.
Proof. destruct w; simpl; auto using simResult_refl. Qed.

Lemma simRun_refl s : simRun s s.
Proof.
  split; try done; apply Forall_Forall2_diag, Forall_forall;
    auto using simResult_refl, simWorker_refl.
Qed.

Lemma simWorker_exited ws ws' :
  Forall2 simWorker ws ws' → forallb exited ws = forallb exited ws'.
Proof.
  induction 1 as [|w w' ws ws' Hw _ IH]; [done|]. simpl. rewrite IH. f_equal.
  by destruct w, w'.
Qed.

Lemma sim_set_worker i w w' s s' :
  simRun s s' → simWorker w w' → simRun (set_worker i w s) (set_worker i w' s').
Proof.
  intros [] Hw. split; simpl; try done. by apply Forall2_insert.
Qed.

Lemma sim_recvJob i got got' s1 s2 s1' :
  simRun s1 s2 → (∀ job, simWorker (got job) (got' job)) →
  recvJob i got s1 = Some s1' →
  ∃ s2', recvJob i got' s2 = Some s2' ∧ simRun s1' s2'.
Proof.
  intros Hsim Hgot Hr. unfold recvJob, recv in *.
  rewrite <-(sim_jobChan _ _ Hsim).
  destruct (buf (jobChan s1)) as [|job rest]; simpl in *.
  - destruct (closed (jobChan s1)); simpl in *; [|done]. simplify_eq.
    eexists. split; [done|]. by apply sim_set_worker.
  - simplify_eq. eexists. split; [done|].
    pose proof (sim_set_worker i _ _ _ _ Hsim (Hgot job)) as [].
    split; simpl in *; done.
Qed.

Lemma sim_sendResult i next next' r r' s1 s2 s1' :
  simRun s1 s2 → simWorker next next' → simResult r r' →
  sendResult i next r s1 = Some s1' →
  ∃ s2', sendResult i next' r' s2 = Some s2' ∧ simRun s1' s2'.
Proof.
  intros Hsim Hnext Hr Hs. unfold sendResult, send in *.
  rewrite <-(sim_closed _ _ Hsim), <-(sim_cap _ _ Hsim).
  rewrite <-(Forall2_length _ _ _ (sim_buf _ _ Hsim)).
  destruct (closed (resultChan s1)) eqn:Ec.
  - simplify_eq. eexists. split; [done|]. destruct Hsim. by split.
  - case_bool_decide; simpl in *; [|done]. simplify_eq.
    eexists. split; [done|].
    pose proof (sim_set_worker i _ _ _ _ Hsim Hnext) as [].
    split; simpl in *; try done.
    apply Forall2_app; [done|]. by constructor.
Qed.

Lemma sim_onCtxDone i s1 s2 s1' :
  simRun s1 s2 → onCtxDone i s1 = Some s1' →
  ∃ s2', onCtxDone i s2 = Some s2' ∧ simRun s1' s2'.
Proof.
  intros Hsim Hd. unfold onCtxDone in *. rewrite <-(sim_ctx _ _ Hsim).
  destruct (ctxErr s1); [|done]. simplify_eq.
  eexists. split; [done|]. by apply sim_set_worker.
Qed.

Lemma sim_work i viaDone s1 s2 s1' :
  simRun s1 s2 → work GetClient Generate i viaDone s1 = Some s1' →
  ∃ s2', work GetClient Generate' i viaDone s2 = Some s2' ∧ simRun s1' s2'.
Proof.
  intros Hsim Hw. unfold work in *.
  destruct (workers s1 !! i) as [w|] eqn:E; [|done]. simpl in Hw.
  destruct (Forall2_lookup_l _ _ _ _ _ (sim_workers _ _ Hsim) E) as (w' & E' & Hww).
  rewrite E'. simpl.
  destruct w, w'; try done; simpl in Hww; destruct_and?; subst;
    destruct viaDone; try done.
  - simplify_eq. rewrite <-(sim_config _ _ Hsim). eexists. split; [done|].
    apply sim_set_worker; [done|]. apply simWorker_refl.
  - eapply sim_recvJob; [done| |done]. intros job. simpl. split; [done|].
    apply simResult_refl.
  - refine (sim_sendResult _ _ _ _ _ _ _ _ Hsim _ _ Hw); [by simpl|done].
  - by eapply sim_onCtxDone.
  - eapply sim_recvJob; [done| |done]. intros job. simpl.
    by rewrite (sim_clock _ _ Hsim).
  - rewrite <-(sim_ctx _ _ Hsim), <-(sim_clock _ _ Hsim).
    destruct (Generate c0 (ctxErr s1) (Prompt job0)) as [resp gerr] eqn:Eg.
    destruct (Generate' c0 (ctxErr s1) (Prompt job0)) as [resp' gerr'] eqn:Eg'.
    simplify_eq. eexists. split; [done|]. apply sim_set_worker; [done|].
    simpl. split; [done|]. unfold simResult; simpl. split_and!; try done.
    intros Hn. rewrite (unchanged _ _ _ Hn) in Eg. split; congruence.
  - by eapply sim_onCtxDone.
  - refine (sim_sendResult _ _ _ _ _ _ _ _ Hsim _ _ Hw); [by simpl|done].
Qed.

Lemma sim_step ev s1 s2 s1' :
  simRun s1 s2 → step GetClient Generate ev s1 = Some s1' →
  ∃ s2', step GetClient Generate' ev s2 = Some s2' ∧ simRun s1' s2'.
Proof.
  intros Hsim Hstep. unfold step in *. rewrite <-(sim_main _ _ Hsim).
  destruct (panicked (main s1)); [done|].
  destruct ev as [d|deadline|viaDone|i viaDone| |].
  - case_bool_decide; [|done]. simplify_eq. eexists. split; [done|].
    destruct Hsim. split; simpl; try done. congruence.
  - rewrite <-(sim_ctx _ _ Hsim). destruct (ctxErr s1); [done|]. simplify_eq.
    eexists. split; [done|]. destruct Hsim. by split.
  - unfold dispatch, send in *.
    rewrite <-(sim_dispatcher _ _ Hsim), <-(sim_ctx _ _ Hsim), <-(sim_jobChan _ _ Hsim).
    destruct (dispatcher s1) as [[|job rest]|]; simpl in *; [| |done].
    + destruct viaDone; [done|]. simplify_eq. eexists. split; [done|].
      destruct Hsim. by split.
    + destruct viaDone.
      * destruct (ctxErr s1); [|done]. simplify_eq. eexists. split; [done|].
        destruct Hsim. by split.
      * case_bool_decide; simpl in *; [|done]. simplify_eq.
        eexists. split; [done|]. destruct Hsim. by split.
  - by eapply sim_work.
  - unfold waitClose in *.
    rewrite <-(sim_waiter _ _ Hsim), <-(simWorker_exited _ _ (sim_workers _ _ Hsim)).
    destruct (waiter s1); [|done]. destruct (forallb exited (workers s1)); [|done].
    simplify_eq. eexists. split; [done|]. destruct Hsim. split; simpl; try done.
  - unfold collect, recv in *. rewrite <-(sim_main _ _ Hsim).
    destruct (main s1) eqn:Em; try done.
    + pose proof (sim_buf _ _ Hsim) as Hbuf.
      rewrite <-(sim_closed _ _ Hsim).
      destruct Hbuf as [|r r' rest rest' Hr Hrest]; simpl in *.
      * destruct (closed (resultChan s1)) eqn:Ec; [|done]. simpl in *. simplify_eq.
        eexists. split; [done|]. destruct Hsim. by split.
      * simplify_eq. eexists. split; [done|]. destruct Hsim. split; simpl; try done.
        apply Forall2_app; [done|]. by constructor.
    + simplify_eq. rewrite <-(sim_ctx _ _ Hsim). eexists. split; [done|].
      destruct Hsim. by split.
Qed.

Lemma sim_run evs s1 s2 s1' :
  simRun s1 s2 → run GetClient Generate evs s1 = Some s1' →
  ∃ s2', run GetClient Generate' evs s2 = Some s2' ∧ simRun s1' s2'.
Proof.
  revert s1 s2. induction evs as [|ev evs IH]; intros s1 s2 Hsim Hrun; simpl in *.
  - simplify_eq. by exists s2.
  - destruct (step GetClient Generate ev s1) as [t1|] eqn:E; [|done]. simpl in Hrun.
    destruct (sim_step _ _ _ _ Hsim E) as (t2 & -> & Hsim'). simpl.
    by eapply IH.
Qed.

(** C6.  Change the generator on some prompts only, for instance so that
    it always fails on them.  Then every run of [ProcessJobs] under the
    first generator is matched, schedule for schedule, by a run under the
    second that reaches the same point: it has returned exactly when the
    first has, with the same run-level error and with results that pair
    off one by one, each pair being for the same job, from the same worker
    and of the same duration, and having the same response and the same
    error whenever the generator was not changed on the prompt of the
    job. *)
Theorem generator_failures_are_isolated bp0 ctx now jobs evs s :
  run GetClient Generate evs (ProcessJobs bp0 ctx now jobs) = Some s →
  ∃ s', run GetClient Generate' evs (ProcessJobs bp0 ctx now jobs) = Some s'
        ∧ simRun s s'
        ∧ ∀ rs err, outcome s = Some (rs, err) →
            ∃ rs', outcome s' = Some (rs', err) ∧ Forall2 simResult rs rs'.
Proof.
  intros Hrun.
  destruct (sim_run _ _ _ _ (simRun_refl _) Hrun) as (s' & Hrun' & Hsim).
  exists s'. split_and!; try done.
  intros rs err Hout. unfold outcome in *. rewrite <-(sim_main _ _ Hsim).
  destruct (main s); simplify_eq. eexists. split; [done|].
  apply (sim_results _ _ Hsim).
Qed.

End Isolation.

(** ** The job source *)

Lemma createJobsFromPrompts_lookup prompts i :
  createJobsFromPrompts prompts !! i
  = (λ prompt, {| ID := "job-" +:+ pretty (S i); Prompt := prompt;
                  JobMetadata := Some ∅ |}) <$> prompts !! i.
Proof. unfold createJobsFromPrompts. by rewrite list_lookup_imap. Qed.

(** C8, amended.  [createJobsFromPrompts] returns as many jobs as it is
    given prompts, the job at (0-based) position [i] having the identifier
    "job-" followed by [i + 1] in decimal, the prompt at position [i] and
    an empty metadata map, so that the prompts come back in order.
    [createJobsFromFile] trims every line it reads, drops the trimmed
    lines that are empty or start with '#', and hands the trimmed lines
    that remain, in order, to [createJobsFromPrompts]; when the file cannot
    be opened or the scanner ends with an error it returns no job and that
    error, wrapped. *)
Theorem job_source_numbers_prompts (fs : FileSystem) prompts filename :
  length (createJobsFromPrompts prompts) = length prompts
  ∧ (∀ i prompt, prompts !! i = Some prompt →
       createJobsFromPrompts prompts !! i
       = Some {| ID := "job-" +:+ pretty (S i); Prompt := prompt;
                 JobMetadata := Some ∅ |})
  ∧ Prompt <$> createJobsFromPrompts prompts = prompts
  ∧ match fs filename with
    | inl err =>
        createJobsFromFile fs filename
        = ([], Some (Errorf_w "failed to open file: " err))
    | inr file =>
        match scanErr file with
        | Some err =>
            createJobsFromFile fs filename
            = ([], Some (Errorf_w "error reading file: " err))
        | None =>
            createJobsFromFile fs filename
            = (createJobsFromPrompts
                 (filter (λ line, line ≠ "" ∧ HasPrefix line "#" = false)
                         (TrimSpace <$> lines file)),
               None)
        end
    end.
Proof.
  split_and!.
  - unfold createJobsFromPrompts. apply length_imap.
  - intros i prompt Hi. by rewrite createJobsFromPrompts_lookup, Hi.
  - apply list_eq. intros i.
    rewrite list_lookup_fmap, createJobsFromPrompts_lookup.
    by destruct (prompts !! i).
  - unfold createJobsFromFile. destruct (fs filename) as [err|file]; [done|].
    destruct (scanErr file); [done|]. f_equal. f_equal. unfold scanPrompts.
    apply list_filter_iff. intros line. unfold keepLine.
    rewrite andb_true_iff, !negb_true_iff.
    destruct (String.eqb_spec line ""); split; intros []; try done.
Qed.

(** ** The engine at work

    The collaborators of the tests (main_test.go): a factory that fails
    when the provider is "error", and a client that fails on the prompts
    that contain "error" and gives back [ctx.Err()] once the context is
    done. *)

(** [strings.Contains] *)
Fixpoint Contains (s substr : string) : bool :=
  String.prefix substr s ||
  match s with
  | EmptyString => false
  | String _ s' => Contains s' substr
  end.

Definition mockGetClient (workerID : Z) (cfg : string) (debugMode : bool)
    : string + error :=
  if String.eqb cfg "error" then inr (errorString "mock error creating client")
  else inl cfg.

Definition mockGenerate (client : string) (ctx : option error) (prompt : string)
    : string * option error :=
  match ctx with
  | Some err => ("", Some err)
  | None =>
      if Contains prompt "error"
      then ("", Some (errorString "mock generation error"))
      else ("Response from " +:+ client +:+ ": " +:+ prompt, None)
  end.

(** The same client, made to fail on one more prompt. *)
Definition mockGenerate_failing_on (bad : string) (client : string)
    (ctx : option error) (prompt : string) : string * option error :=
  if String.eqb prompt bad then ("", Some (errorString "mock generation error"))
  else mockGenerate client ctx prompt.

Definition demo_jobs : list BatchJob :=
  createJobsFromPrompts ["Success"; "error"; "Another success"].

Definition demo_bp : @BatchProcessor string := NewBatchProcessor "ollama" 2.

Definition demo_start : @Run string string := ProcessJobs demo_bp None 0 demo_jobs.

(** Two workers share three jobs; the second job fails, and the results
    arrive in the order 2, 1, 3. *)
Definition demo_schedule : list Event :=
  [ Work 0 false; Work 1 false;
    Dispatch false; Dispatch false; Dispatch false; Dispatch false;
    Work 0 false; Work 1 false; Tick 10;
    Work 1 false; Work 1 false; Tick 5;
    Work 0 false; Work 0 false;
    Collect;
    Work 1 false; Tick 10; Work 1 false; Work 1 false;
    Collect;
    Work 0 false; Work 1 false; WaitClose;
    Collect; Collect; Collect ].

Definition demo_results : list BatchResult :=
  [ mkResult (mkJob "job-2" "error" (Some ∅)) "" 10
             (Some (errorString "mock generation error")) 2;
    mkResult (mkJob "job-1" "Success" (Some ∅))
             "Response from ollama: Success" 15 None 1;
    mkResult (mkJob "job-3" "Another success" (Some ∅))
             "Response from ollama: Another success" 10 None 2 ].

Definition demo_final : @Run string string :=
  Eval vm_compute in
    default demo_start (run mockGetClient mockGenerate demo_schedule demo_start).

Example demo_run :
  run mockGetClient mockGenerate demo_schedule demo_start = Some demo_final
  ∧ outcome demo_final = Some (demo_results, None)
  ∧ GetStatistics (bp demo_final) = mkStats 3 2 1 35 11 2 0 25.
Proof. vm_compute. done. Qed.

(** The same run, stopped after the collector has folded its first
    result. *)
Definition demo_mid : @Run string string :=
  Eval vm_compute in
    default demo_start
      (run mockGetClient mockGenerate (take 15 demo_schedule) demo_start).

Example demo_mid_run :
  run mockGetClient mockGenerate (take 15 demo_schedule) demo_start = Some demo_mid
  ∧ main demo_mid = MCollect
  ∧ length (results demo_mid) = 1%nat
  ∧ GetStatistics (bp demo_mid) = mkStats 3 0 1 10 0 2 0 0.
Proof. vm_compute. done. Qed.

(** A run whose deadline expires while the first job is being generated:
    the dispatcher stops, the job in flight comes back with the context's
    error, the idle worker leaves. *)
Definition expired_schedule : list Event :=
  [ Work 0 false; Work 1 false; Dispatch false; Work 0 false; Tick 100;
    CancelCtx true; Dispatch true;
    Work 0 false; Work 0 false; Work 0 true; Work 1 true;
    WaitClose; Collect; Collect; Collect ].

Definition expired_final : @Run string string :=
  Eval vm_compute in
    default demo_start (run mockGetClient mockGenerate expired_schedule demo_start).

Definition expired_results : list BatchResult :=
  [ mkResult (mkJob "job-1" "Success" (Some ∅)) "" 100 (Some DeadlineExceeded) 1 ].

Example expired_run :
  run mockGetClient mockGenerate expired_schedule demo_start = Some expired_final
  ∧ outcome expired_final = Some (expired_results, Some DeadlineExceeded).
Proof. vm_compute. done. Qed.

(** A run in which no worker gets a client (scenario 3 of the
    specification). *)
Definition failing_bp : @BatchProcessor string := NewBatchProcessor "error" 2.

Definition failing_start : @Run string string :=
  ProcessJobs failing_bp None 0 demo_jobs.

Definition failing_schedule : list Event :=
  [ Work 0 false; Work 1 false;
    Dispatch false; Dispatch false; Dispatch false; Dispatch false;
    Work 1 false; Work 0 false; Work 0 false; Work 1 false; Work 0 false;
    Work 0 false; Collect; Collect; Work 0 false; Work 1 false;
    WaitClose; Collect; Collect; Collect ].

Definition failing_final : @Run string string :=
  Eval vm_compute in
    default failing_start
      (run mockGetClient mockGenerate failing_schedule failing_start).

Definition setupFailure : option error :=
  Some (wrapError "failed to create LLM client: mock error creating client"
                  (errorString "mock error creating client")).

Example failing_run :
  run mockGetClient mockGenerate failing_schedule failing_start = Some failing_final
  ∧ outcome failing_final
    = Some ([ mkResult (mkJob "job-2" "error" (Some ∅)) "" 0 setupFailure 1;
              mkResult (mkJob "job-1" "Success" (Some ∅)) "" 0 setupFailure 2;
              mkResult (mkJob "job-3" "Another success" (Some ∅)) "" 0 setupFailure 1 ],
            None)
  ∧ received mockGetClient mockGenerate 0 failing_schedule failing_start
    = [ mkJob "job-2" "error" (Some ∅); mkJob "job-3" "Another success" (Some ∅) ]
  ∧ FailedJobs (GetStatistics (bp failing_final)) = 3.
Proof. vm_compute. done. Qed.

(** ** The theorems on these runs *)

Lemma demo_jobs_nonempty : demo_jobs ≠ [].
Proof. discriminate. Defined.

Lemma demo_count : 1 ≤ workerCount demo_bp.
Proof. by vm_compute. Defined.

Lemma demo_length : Z.of_nat (length demo_jobs) ≤ MaxInt64.
Proof. by vm_compute. Defined.

Lemma one_result_per_job_witness :
  Job <$> demo_results ≡ₚ demo_jobs ∧ length demo_results = length demo_jobs.
Proof.
  refine (proj1 (one_result_per_job mockGetClient mockGenerate demo_bp None 0
                   demo_jobs demo_schedule demo_final
                   demo_jobs_nonempty demo_count _ _) demo_results None _).
  - vm_compute. reflexivity.
  - reflexivity.
  - reflexivity.
Defined.

Lemma clientless_worker_drains_witness :
  emitted 0 failing_final
  = failedResult 1 (errorString "mock error creating client")
    <$> received mockGetClient mockGenerate 0 failing_schedule failing_start.
Proof.
  refine (proj1 (proj2 (proj2
    (clientless_worker_drains mockGetClient mockGenerate failing_bp None 0
       demo_jobs failing_schedule failing_final 0%nat
       (errorString "mock error creating client")
       demo_jobs_nonempty _ _ _)))).
  - by vm_compute.
  - vm_compute. reflexivity.
  - reflexivity.
Defined.

Lemma counters_match_results_witness :
  CompletedJobs (GetStatistics (bp demo_mid))
  + FailedJobs (GetStatistics (bp demo_mid))
  = Z.of_nat (length (results demo_mid)).
Proof.
  refine (proj1 (counters_match_results mockGetClient mockGenerate demo_bp None 0
                   demo_jobs (take 15 demo_schedule) demo_mid
                   demo_jobs_nonempty demo_length demo_count _)).
  vm_compute. reflexivity.
Defined.

Lemma run_error_is_ctx_error_witness :
  (length expired_results ≤ length demo_jobs)%nat.
Proof.
  refine (proj1 (proj2
    (run_error_is_ctx_error mockGetClient mockGenerate demo_bp None 0 demo_jobs
       expired_schedule expired_final expired_results (Some DeadlineExceeded)
       demo_jobs_nonempty _ _))).
  - vm_compute. reflexivity.
  - reflexivity.
Defined.

Lemma average_set_on_finalize_witness :
  AverageDuration (GetStatistics (bp demo_final))
  = TotalDuration (GetStatistics (bp demo_final))
    `quot` TotalJobs (GetStatistics (bp demo_final)).
Proof.
  refine (proj1 (proj1 (proj2 (proj2
    (average_set_on_finalize mockGetClient mockGenerate demo_bp None 0 demo_jobs
       demo_schedule demo_final demo_jobs_nonempty demo_length demo_count _)))
    _)).
  - vm_compute. reflexivity.
  - discriminate.
Defined.

Lemma mock_unchanged client ce prompt :
  ¬ prompt = "Success" →
  mockGenerate client ce prompt
  = mockGenerate_failing_on "Success" client ce prompt.
Proof.
  intros Hne. unfold mockGenerate_failing_on.
  destruct (String.eqb_spec prompt "Success"); [done|reflexivity].
Defined.

Lemma generator_failures_are_isolated_witness :
  ∃ s', run mockGetClient (mockGenerate_failing_on "Success") demo_schedule demo_start
        = Some s'
        ∧ simRun (λ prompt, prompt = "Success") demo_final s'
        ∧ ∀ rs err, outcome demo_final = Some (rs, err) →
            ∃ rs', outcome s' = Some (rs', err)
                   ∧ Forall2 (simResult (λ prompt, prompt = "Success")) rs rs'.
Proof.
  refine (generator_failures_are_isolated mockGetClient mockGenerate
            (mockGenerate_failing_on "Success") (λ prompt, prompt = "Success")
            mock_unchanged demo_bp None 0 demo_jobs demo_schedule demo_final _).
  vm_compute. reflexivity.
Defined.

(** With the generator failing on "Success" too, the run above returns the
    same results for the two other jobs. *)
Example isolation_on_demo :
  outcome <$> run mockGetClient (mockGenerate_failing_on "Success")
                  demo_schedule demo_start
  = Some (Some ([ mkResult (mkJob "job-2" "error" (Some ∅)) "" 10
                           (Some (errorString "mock generation error")) 2;
                  mkResult (mkJob "job-1" "Success" (Some ∅)) "" 15
                           (Some (errorString "mock generation error")) 1;
                  mkResult (mkJob "job-3" "Another success" (Some ∅))
                           "Response from ollama: Another success" 10 None 2 ],
                None)).
Proof. vm_compute. reflexivity. Qed.

(** ** Where the specification and the code part *)

(** Against C4 as written: with a cancelled context and no job,
    [ProcessJobs] returns a nil error, not the error of the context. *)
Lemma empty_run_ignores_cancellation :
  ctxErr (ProcessJobs demo_bp (Some Canceled) 0 [] : @Run string string)
  = Some Canceled
  ∧ outcome (ProcessJobs demo_bp (Some Canceled) 0 [] : @Run string string)
    = Some ([], None)
  ∧ snd <$> outcome (ProcessJobs demo_bp (Some Canceled) 0 [] : @Run string string)
    ≠ Some (ctxErr (ProcessJobs demo_bp (Some Canceled) 0 [] : @Run string string)).
Proof. vm_compute. split_and!; done. Qed.

(** Against C5 as written: queried after the first of three results has
    been folded, the statistics show a total duration of 10 for 3 jobs and
    an average of 0, which is neither 10 / 3 nor 10 / 1. *)
Lemma average_unset_mid_run :
  run mockGetClient mockGenerate (take 15 demo_schedule) demo_start = Some demo_mid
  ∧ length (results demo_mid) = 1%nat
  ∧ TotalDuration (GetStatistics (bp demo_mid)) = 10
  ∧ TotalJobs (GetStatistics (bp demo_mid)) = 3
  ∧ AverageDuration (GetStatistics (bp demo_mid))
    ≠ TotalDuration (GetStatistics (bp demo_mid))
      `quot` TotalJobs (GetStatistics (bp demo_mid))
  ∧ AverageDuration (GetStatistics (bp demo_mid))
    ≠ TotalDuration (GetStatistics (bp demo_mid))
      `quot` Z.of_nat (length (results demo_mid)).
Proof. vm_compute. split_and!; done. Qed.

(** A prompt file with an indented comment and a padded prompt. *)
Definition demo_fs : FileSystem :=
  λ filename,
    if String.eqb filename "prompts.txt"
    then inr (mkScanned ["  # a note"; " Second prompt  "] None)
    else inl (errorString "open: no such file or directory").

(** Against C8 as written: the code drops the indented comment, which does
    not start with '#', and its prompt is the trimmed line, not the line. *)
Lemma file_lines_are_trimmed_first :
  createJobsFromFile demo_fs "prompts.txt"
  = ([mkJob "job-1" "Second prompt" (Some ∅)], None)
  ∧ createJobsFromFile_as_written demo_fs "prompts.txt"
    = ([mkJob "job-1" "  # a note" (Some ∅);
        mkJob "job-2" " Second prompt  " (Some ∅)], None)
  ∧ createJobsFromFile demo_fs "prompts.txt"
    ≠ createJobsFromFile_as_written demo_fs "prompts.txt".
Proof. vm_compute. split_and!; done. Qed.

(** The file of the tests, and a file that is not there. *)
Example createJobsFromFile_test :
  createJobsFromFile
    (λ _, inr (mkScanned ["First prompt"; "Second prompt"; "Third prompt"; "";
                          "# Comment line"; "  "; "Fourth prompt"] None))
    "prompts.txt"
  = (createJobsFromPrompts
       ["First prompt"; "Second prompt"; "Third prompt"; "Fourth prompt"], None)
  ∧ createJobsFromFile demo_fs "/nonexistent/file.txt"
    = ([], Some (wrapError "failed to open file: open: no such file or directory"
                           (errorString "open: no such file or directory"))).
Proof. vm_compute. done. Qed.

(** ** Further runs *)

(** One worker answers the three jobs one after the other. *)
Definition solo_bp : @BatchProcessor string := NewBatchProcessor "ollama" 1.

Definition solo_start : @Run string string := ProcessJobs solo_bp None 0 demo_jobs.

Definition solo_schedule : list Event :=
  [ Work 0 false;
    Dispatch false; Dispatch false; Dispatch false; Dispatch false;
    Work 0 false; Tick 7; Work 0 false; Work 0 false;
    Work 0 false; Work 0 false; Work 0 false; Collect;
    Work 0 false; Tick 3; Work 0 false; Work 0 false;
    Work 0 false; WaitClose;
    Collect; Collect; Collect; Collect ].

Definition solo_final : @Run string string :=
  Eval vm_compute in
    default solo_start (run mockGetClient mockGenerate solo_schedule solo_start).

Example solo_run :
  run mockGetClient mockGenerate solo_schedule solo_start = Some solo_final
  ∧ (ID ∘ Job <$> results solo_final) = ["job-1"; "job-2"; "job-3"]
  ∧ main solo_final = MReturned None.
Proof. vm_compute. done. Qed.

Lemma never_sends_on_closed_channel_witness : main demo_final ≠ MPanicked.
Proof.
  refine (proj1 (never_sends_on_closed_channel mockGetClient mockGenerate
                   demo_bp None 0 demo_jobs demo_schedule demo_final _)).
  vm_compute. reflexivity.
Defined.

Lemma sends_never_block_witness :
  (length (buf (jobChan demo_mid)) ≤ cap (jobChan demo_mid))%nat.
Proof.
  refine (proj1 (sends_never_block mockGetClient mockGenerate demo_bp None 0
                   demo_jobs (take 15 demo_schedule) demo_mid
                   demo_jobs_nonempty _)).
  vm_compute. reflexivity.
Defined.

Lemma no_job_is_answered_twice_witness :
  (Job <$> results expired_final) ++ (Job <$> buf (resultChan expired_final))
  ⊆+ demo_jobs.
Proof.
  refine (no_job_is_answered_twice mockGetClient mockGenerate demo_bp None 0
            demo_jobs expired_schedule expired_final _).
  vm_compute. reflexivity.
Defined.

Lemma results_come_from_their_worker_witness :
  1 ≤ 2 ≤ GetWorkerCount demo_bp.
Proof.
  refine (proj1 (proj2
    (results_come_from_their_worker mockGetClient mockGenerate demo_bp None 0
       demo_jobs demo_schedule demo_final
       (mkResult (mkJob "job-2" "error" (Some ∅)) "" 10
                 (Some (errorString "mock generation error")) 2)
       demo_jobs_nonempty _ _))).
  - vm_compute. reflexivity.
  - apply list_elem_of_here.
Defined.

Lemma all_results_fail_without_clients_witness :
  GetProcessedCount (bp failing_final) = 0.
Proof.
  refine (proj1 (proj2
    (all_results_fail_without_clients mockGetClient mockGenerate failing_bp
       None 0 demo_jobs failing_schedule failing_final
       demo_jobs_nonempty demo_length _ _ _))).
  - by vm_compute.
  - intros workerID. exists (errorString "mock error creating client").
    reflexivity.
  - vm_compute. reflexivity.
Defined.

Lemma progress_never_goes_back_witness :
  0 ≤ GetErrorCount (bp demo_mid) ≤ GetErrorCount (bp demo_final).
Proof.
  refine (proj1 (proj2
    (progress_never_goes_back mockGetClient mockGenerate demo_bp None 0
       demo_jobs (take 15 demo_schedule) (drop 15 demo_schedule)
       demo_mid demo_final demo_jobs_nonempty demo_length demo_count _ _))).
  - vm_compute. reflexivity.
  - vm_compute. reflexivity.
Defined.

Lemma returns_whatever_the_context_witness :
  Forall (λ w, exited w = true) (workers expired_final)
  ∧ waiter expired_final = false
  ∧ buf (resultChan expired_final) = [].
Proof.
  refine (proj2 (proj2 (proj2
    (returns_whatever_the_context mockGetClient mockGenerate demo_bp None 0
       demo_jobs expired_schedule expired_final
       demo_jobs_nonempty demo_count _))) _).
  - vm_compute. reflexivity.
  - eexists. reflexivity.
Defined.

Lemma statistics_show_the_worker_count_witness :
  WorkerCount (GetStatistics (bp demo_final)) = GetWorkerCount (bp demo_final).
Proof.
  refine (proj2
    (statistics_show_the_worker_count mockGetClient mockGenerate demo_bp
       (constructed_new mockGetClient mockGenerate "ollama" 2))
    None 0 demo_jobs demo_schedule demo_final _).
  vm_compute. reflexivity.
Defined.

Lemma one_worker_keeps_the_order_witness :
  Job <$> results solo_final = demo_jobs.
Proof.
  refine (proj2 (proj2
    (one_worker_keeps_the_order mockGetClient mockGenerate solo_bp None 0
       demo_jobs solo_schedule solo_final demo_jobs_nonempty _ _)
    (results solo_final) None _) _).
  - reflexivity.
  - vm_compute. reflexivity.
  - reflexivity.
  - reflexivity.
Defined.

Lemma durations_are_not_negative_witness :
  StartTime (GetStatistics (bp demo_final)) = 0.
Proof.
  refine (proj1 (proj2
    (durations_are_not_negative mockGetClient mockGenerate demo_bp None 0
       demo_jobs demo_schedule demo_final demo_jobs_nonempty _))).
  vm_compute. reflexivity.
Defined.

Lemma only_a_deadline_error_reaches_the_caller_witness :
  batchFailed (Some DeadlineExceeded) = false.
Proof.
  refine (only_a_deadline_error_reaches_the_caller mockGetClient mockGenerate
            demo_bp None 0 demo_jobs expired_schedule expired_final
            expired_results (Some DeadlineExceeded) _ _ _ _).
  - reflexivity.
  - repeat (apply Forall_cons; split; [discriminate|]). apply Forall_nil_2.
  - vm_compute. reflexivity.
  - reflexivity.
Defined.

(** * The client factory ([xollm.GetClient])

    The factory the workers call.  [config.Config] carries the name of the
    default provider, the per-provider settings and the request timeout in
    seconds; the three provider packages are reached through their
    [NewClient] functions only. *)

Record LLMConfig : Type := mkLLMConfig {
  APIKey : string;
  BaseURL : string;
  Model : string
}.

Record Config : Type := mkConfig {
  DefaultProvider : string;
  RequestTimeoutSeconds : Z;
  LLMs : gmap string LLMConfig
}.

Section Factory.

Context {Client : Type}.

(** [gemini.NewClient(context.Background(), apiKey, model, debugMode)],
    [ollama.NewClient(baseURL, model, timeout, debugMode)] and
    [groq.NewClient(apiKey, model, timeout, debugMode)]. *)
Variable geminiNewClient : string → string → bool → Client + error.
Variable ollamaNewClient : string → string → Z → bool → Client + error.
Variable groqNewClient : string → string → Z → bool → Client + error.

(** The timeout the factory works with: 60 seconds unless the configured
    one is positive. *)
Definition requestTimeout (cfg : Config) : Z :=
  if bool_decide (RequestTimeoutSeconds cfg ≤ 0) then 60
  else RequestTimeoutSeconds cfg.

Definition GetClient (cfg : Config) (debugMode : bool) : Client + error :=
  let providerName := DefaultProvider cfg in
  if String.eqb providerName "" then
    inr (errorString "no default LLM provider specified in configuration")
  else
    match LLMs cfg !! providerName with
    | None =>
        inr (errorString ("configuration for provider '" +:+ providerName
                          +:+ "' not found"))
    | Some llmCfg =>
        let requestTimeout := requestTimeout cfg in
        if String.eqb providerName "gemini" then
          if String.eqb (APIKey llmCfg) "" then
            inr (errorString "API key for Gemini not found in configuration")
          else geminiNewClient (APIKey llmCfg) (Model llmCfg) debugMode
        else if String.eqb providerName "ollama" then
          if String.eqb (BaseURL llmCfg) "" then
            inr (errorString "base URL for Ollama not found in configuration")
          else ollamaNewClient (BaseURL llmCfg) (Model llmCfg) requestTimeout
                               debugMode
        else if String.eqb providerName "groq" then
          if String.eqb (APIKey llmCfg) "" then
            inr (errorString "API key for Groq not found in configuration")
          else groqNewClient (APIKey llmCfg) (Model llmCfg) requestTimeout
                             debugMode
        else inr (errorString ("unsupported LLM provider: " +:+ providerName))
    end.

(** X12.  The factory hands out a client only for a configuration that
    names one of the three providers, has an entry for it and gives the
    credential that provider needs (an API key for gemini and groq, a base
    URL for ollama); the client is then the one the provider's constructor
    returns for the entry's credential and model, and the timeout ollama
    and groq are given is positive: the configured one, or 60 seconds when
    that is not positive. *)
Theorem factory_builds_only_from_a_valid_entry cfg debugMode client :
  GetClient cfg debugMode = inl client →
  ∃ llmCfg,
    LLMs cfg !! DefaultProvider cfg = Some llmCfg
    ∧ 0 < requestTimeout cfg
    ∧ (0 < RequestTimeoutSeconds cfg →
       requestTimeout cfg = RequestTimeoutSeconds cfg)
    ∧ (RequestTimeoutSeconds cfg ≤ 0 → requestTimeout cfg = 60)
    ∧ ((DefaultProvider cfg = "gemini" ∧ APIKey llmCfg ≠ ""
        ∧ geminiNewClient (APIKey llmCfg) (Model llmCfg) debugMode = inl client)
       ∨ (DefaultProvider cfg = "ollama" ∧ BaseURL llmCfg ≠ ""
          ∧ ollamaNewClient (BaseURL llmCfg) (Model llmCfg)
                            (requestTimeout cfg) debugMode = inl client)
       ∨ (DefaultProvider cfg = "groq" ∧ APIKey llmCfg ≠ ""
          ∧ groqNewClient (APIKey llmCfg) (Model llmCfg)
                          (requestTimeout cfg) debugMode = inl client)).
Proof.
  unfold GetClient. intros H.
  destruct (String.eqb_spec (DefaultProvider cfg) "") as [|_]; [done|].
  destruct (LLMs cfg !! DefaultProvider cfg) as [llmCfg|]; [|done].
  exists llmCfg. split; [done|].
  split_and!; try (unfold requestTimeout; case_bool_decide; lia).
  destruct (String.eqb_spec (DefaultProvider cfg) "gemini") as [Hp|_].
  { destruct (String.eqb_spec (APIKey llmCfg) ""); [done|]. by left. }
  destruct (String.eqb_spec (DefaultProvider cfg) "ollama") as [Hp|_].
  { destruct (String.eqb_spec (BaseURL llmCfg) ""); [done|]. right; by left. }
  destruct (String.eqb_spec (DefaultProvider cfg) "groq") as [Hp|_]; [|done].
  destruct (String.eqb_spec (APIKey llmCfg) ""); [done|]. right; by right.
Qed.

(** X13.  What the factory answers depends on the configuration only
    through the default provider's name, that provider's own entry and,
    unless the provider is gemini, the timeout as the factory reads it:
    the entries of the other providers do not matter, all timeouts that
    are not positive are the same as 60, and for gemini the timeout has no
    effect at all. *)
Theorem factory_reads_only_the_default_entry cfg cfg' debugMode :
  DefaultProvider cfg = DefaultProvider cfg' →
  LLMs cfg !! DefaultProvider cfg = LLMs cfg' !! DefaultProvider cfg →
  DefaultProvider cfg = "gemini" ∨ requestTimeout cfg = requestTimeout cfg' →
  GetClient cfg debugMode = GetClient cfg' debugMode.
Proof.
  unfold GetClient. intros <- <- Ht.
  destruct (String.eqb_spec (DefaultProvider cfg) "") as [|_]; [done|].
  destruct (LLMs cfg !! DefaultProvider cfg) as [llmCfg|]; [|done].
  destruct (String.eqb_spec (DefaultProvider cfg) "gemini") as [Hp|Hp]; [done|].
  destruct Ht as [|<-]; done.
Qed.

End Factory.

(** A factory over constructors that accept whatever they are given and
    answer with their arguments. *)
Definition echoGemini (apiKey model : string) (debugMode : bool)
    : (string * string * Z) + error := inl (apiKey, model, 0).

Definition echoTimed (credential model : string) (timeout : Z) (debugMode : bool)
    : (string * string * Z) + error := inl (credential, model, timeout).

Definition ollama_cfg : Config :=
  mkConfig "ollama" 0
           {[ "ollama" := mkLLMConfig "" "http://localhost:11434" "llama3" ]}.

Definition gemini_cfg (timeout : Z) : Config :=
  mkConfig "gemini" timeout
           {[ "gemini" := mkLLMConfig "key" "" "";
              "groq" := mkLLMConfig "" "" "llama3-8b-8192" ]}.

Example GetClient_ollama :
  GetClient echoGemini echoTimed echoTimed ollama_cfg false
  = inl ("http://localhost:11434", "llama3", 60).
Proof. vm_compute. reflexivity. Qed.

Lemma factory_builds_only_from_a_valid_entry_witness :
  ∃ llmCfg, LLMs ollama_cfg !! "ollama" = Some llmCfg
            ∧ 0 < requestTimeout ollama_cfg.
Proof.
  destruct (factory_builds_only_from_a_valid_entry echoGemini echoTimed
              echoTimed ollama_cfg false ("http://localhost:11434", "llama3", 60))
    as (llmCfg & Hl & Ht & _).
  - vm_compute. reflexivity.
  - exists llmCfg. split; [exact Hl|exact Ht].
Defined.

Lemma factory_reads_only_the_default_entry_witness :
  GetClient echoGemini echoTimed echoTimed (gemini_cfg 30) true
  = GetClient echoGemini echoTimed echoTimed (gemini_cfg (-1)) true.
Proof.
  refine (factory_reads_only_the_default_entry echoGemini echoTimed echoTimed
            (gemini_cfg 30) (gemini_cfg (-1)) true _ _ _).
  - reflexivity.
  - vm_compute. reflexivity.
  - left. reflexivity.
Defined.

(** * The Gemini client (gemini/client.go)

    The client the factory builds for the provider gemini.  The
    [genai] SDK is reached through [genai.NewClient], the method
    [GenerativeModel] of its client and the method [GenerateContent] of
    its generative model; of the response the client
    reads the candidates, with their content and finish reason, and the
    prompt feedback. *)

Module gemini.

(** A [genai.Part] is a [genai.Text] or something else. *)
Inductive Part : Type :=
| Text (txt : string)
| NonText.

Record genaiContent : Type := mkContent {
  Parts : list Part
}.

Record Candidate : Type := mkCandidate {
  Content : option genaiContent;
  FinishReason : Z
}.

Record genaiPromptFeedback : Type := mkPromptFeedback {
  BlockReason : Z
}.

Record GenerateContentResponse : Type := mkResponse {
  Candidates : list Candidate;
  PromptFeedback : option genaiPromptFeedback
}.

Definition defaultGeminiModel : string := "gemma-3-27b-it".

Record Client {GenaiClient : Type} : Type := mkClient {
  genaiClient : option GenaiClient;
  modelName : string
}.
Global Arguments Client : clear implicits.
Global Arguments mkClient {GenaiClient}.

Section SDK.

Context {GenaiClient GenerativeModel : Type}.

Variable genaiNewClient : option error → string → GenaiClient + error.
Variable GenerativeModelOf : GenaiClient → string → option GenerativeModel.
Variable GenerateContent :
  GenerativeModel → option error → string → GenerateContentResponse + error.
Variable FinishReasonSafety BlockReasonUnspecified : Z.
Variable BlockReasonString : Z → string.

Definition NewClient (ctx : option error) (apiKey modelOverride : string)
    (debugMode : bool) : Client GenaiClient + error :=
  if String.eqb apiKey "" then inr (errorString "Gemini API key is required")
  else
    match genaiNewClient ctx apiKey with
    | inr err =>
        inr (wrapError ("failed to create genai client: " +:+ Error err
                        +:+ ". [2, 5]") err)
    | inl g =>
        inl (mkClient (Some g)
                      (if String.eqb modelOverride "" then defaultGeminiModel
                       else modelOverride))
    end.

(** [len(resp.Candidates) == 0 || resp.Candidates[0].Content == nil ||
    len(resp.Candidates[0].Content.Parts) == 0] *)
Definition emptyOrMalformed (resp : GenerateContentResponse) : bool :=
  match Candidates resp with
  | [] => true
  | cand :: _ =>
      match Content cand with
      | None => true
      | Some content => bool_decide (length (Parts content) = 0%nat)
      end
  end.

(** [resp.Candidates[0].Content.Parts], read where the test above has
    failed. *)
Definition firstParts (resp : GenerateContentResponse) : list Part :=
  match Candidates resp with
  | cand :: _ => if Content cand is Some content then Parts content else []
  | [] => []
  end.

(** The body of the loop over the parts. *)
Definition addPart (resultText : string) (part : Part) : string :=
  match part with
  | Text txt => resultText +:+ txt
  | NonText => resultText
  end.

Definition Generate (c : Client GenaiClient) (ctx : option error)
    (prompt : string) : string * option error :=
  match genaiClient c with
  | None => ("", Some (errorString "Gemini client not initialized"))
  | Some g =>
      match GenerativeModelOf g (modelName c) with
      | None =>
          ("", Some (errorString ("failed to get generative model: "
                                  +:+ modelName c)))
      | Some model =>
          match GenerateContent model ctx prompt with
          | inr err =>
              ("", Some (wrapError ("failed to generate content from Gemini: "
                                    +:+ Error err +:+ ". [2, 7]") err))
          | inl resp =>
              if emptyOrMalformed resp then
                if match Candidates resp with
                   | cand :: _ => bool_decide (FinishReason cand = FinishReasonSafety)
                   | [] => false
                   end
                then ("", Some (errorString
                        "Gemini content generation blocked due to safety settings. [7]"))
                else
                  match PromptFeedback resp with
                  | Some fb =>
                      if bool_decide (BlockReason fb ≠ BlockReasonUnspecified)
                      then ("", Some (errorString
                              ("Gemini prompt blocked: "
                               +:+ BlockReasonString (BlockReason fb) +:+ ". [2]")))
                      else ("", Some (errorString
                              "Gemini response was empty or malformed. [2, 6]"))
                  | None =>
                      ("", Some (errorString
                         "Gemini response was empty or malformed. [2, 6]"))
                  end
              else
                let resultText := foldl addPart "" (firstParts resp) in
                if String.eqb resultText "" then
                  ("", Some (errorString
                     "Gemini response contained no usable text content"))
                else (resultText, None)
          end
      end
  end.

End SDK.

End gemini.

Lemma string_app_cons (x : ascii) (a b : string) :
  String x a +:+ b = String x (a +:+ b).
Proof. reflexivity. Qed.

Lemma string_app_assoc (a b c : string) : (a +:+ b) +:+ c = a +:+ (b +:+ c).
Proof.
  induction a as [|x a IH]; [done|]. by rewrite !string_app_cons, IH.
Qed.

Lemma string_app_nil_r (a : string) : a +:+ "" = a.
Proof. induction a as [|x a IH]; [done|]. by rewrite string_app_cons, IH. Qed.

(** The texts among the parts, in order. *)
Definition texts (parts : list gemini.Part) : list string :=
  omap (λ part, if part is gemini.Text txt then Some txt else None) parts.

Lemma foldl_addPart acc parts :
  foldl gemini.addPart acc parts
  = acc +:+ foldr String.append "" (texts parts).
Proof.
  revert acc. induction parts as [|part parts IH]; intros acc; simpl.
  - by rewrite string_app_nil_r.
  - rewrite IH. destruct part as [txt|]; [|done].
    change (texts (gemini.Text txt :: parts)) with (txt :: texts parts).
    change (gemini.addPart acc (gemini.Text txt)) with (acc +:+ txt).
    rewrite string_app_assoc. done.
Qed.

Section GeminiProperties.

Context {GenaiClient GenerativeModel : Type}.
Variable genaiNewClient : option error → string → GenaiClient + error.
Variable GenerativeModelOf : GenaiClient → string → option GenerativeModel.
Variable GenerateContent :
  GenerativeModel → option error → string
  → gemini.GenerateContentResponse + error.
Variable FinishReasonSafety BlockReasonUnspecified : Z.
Variable BlockReasonString : Z → string.

Local Abbreviation Generate :=
  (gemini.Generate GenerativeModelOf GenerateContent FinishReasonSafety
                   BlockReasonUnspecified BlockReasonString).

Lemma Generate_cases c ctx prompt :
  (∃ err, Generate c ctx prompt = ("", Some err))
  ∨ (∃ g model resp cand rest content,
       gemini.genaiClient c = Some g
       ∧ GenerativeModelOf g (gemini.modelName c) = Some model
       ∧ GenerateContent model ctx prompt = inl resp
       ∧ gemini.Candidates resp = cand :: rest
       ∧ gemini.Content cand = Some content
       ∧ foldr String.append "" (texts (gemini.Parts content)) ≠ ""
       ∧ Generate c ctx prompt
         = (foldr String.append "" (texts (gemini.Parts content)), None)).
Proof.
  unfold gemini.Generate.
  destruct (gemini.genaiClient c) as [g|] eqn:Hg; [|left; by eexists].
  destruct (GenerativeModelOf g _) as [model|] eqn:Hm; [|left; by eexists].
  destruct (GenerateContent model ctx prompt) as [resp|err] eqn:Hr;
    [|left; by eexists].
  destruct (gemini.emptyOrMalformed resp) eqn:Hem.
  { left. repeat case_match. all: by eexists. }
  unfold gemini.firstParts. unfold gemini.emptyOrMalformed in Hem.
  destruct (gemini.Candidates resp) as [|cand rest] eqn:Hc; [done|].
  destruct (gemini.Content cand) as [content|] eqn:Hcont; [|done].
  rewrite foldl_addPart.
  change ("" +:+ foldr String.append "" (texts (gemini.Parts content)))
    with (foldr String.append "" (texts (gemini.Parts content))).
  destruct (String.eqb_spec (foldr String.append "" (texts (gemini.Parts content))) "")
    as [Heq|Hne]; [left; by eexists|].
  right. by exists g, model, resp, cand, rest, content.
Qed.

(** X14.  [Generate] of the Gemini client answers either an error with an
    empty text or a text that is not empty with a nil error, never both and
    never neither; the text it answers is the concatenation, in order, of
    the text parts of the first candidate of the SDK's response, the
    parts that are no text being skipped. *)
Theorem gemini_answers_a_text_or_an_error c ctx prompt :
  (snd (Generate c ctx prompt) = None ↔ fst (Generate c ctx prompt) ≠ "")
  ∧ (snd (Generate c ctx prompt) = None →
     ∃ g model resp cand rest content,
       gemini.genaiClient c = Some g
       ∧ GenerativeModelOf g (gemini.modelName c) = Some model
       ∧ GenerateContent model ctx prompt = inl resp
       ∧ gemini.Candidates resp = cand :: rest
       ∧ gemini.Content cand = Some content
       ∧ fst (Generate c ctx prompt)
         = foldr String.append "" (texts (gemini.Parts content))).
Proof.
  destruct (Generate_cases c ctx prompt)
    as [[err ->]|(g & model & resp & cand & rest & content
                  & Hg & Hm & Hr & Hc & Hcont & Hne & ->)]; simpl.
  - split; [split; intros; done|done].
  - split; [done|]. intros _. by exists g, model, resp, cand, rest, content.
Qed.

End GeminiProperties.

(** ** The Gemini client behind the factory and under the workers *)

(** What the factory returns is the interface [Client]: a Gemini client
    or a client of another provider. *)
Inductive anyClient (GenaiClient Other : Type) : Type :=
| GeminiClient (c : gemini.Client GenaiClient)
| OtherClient (o : Other).
Arguments GeminiClient {GenaiClient Other}.
Arguments OtherClient {GenaiClient Other}.

Section GeminiFactory.

Context {GenaiClient GenerativeModel Other : Type}.
Variable genaiNewClient : option error → string → GenaiClient + error.
Variable GenerativeModelOf : GenaiClient → string → option GenerativeModel.
Variable GenerateContent :
  GenerativeModel → option error → string
  → gemini.GenerateContentResponse + error.
Variable FinishReasonSafety BlockReasonUnspecified : Z.
Variable BlockReasonString : Z → string.
Variable ollamaNewClient groqNewClient :
  string → string → Z → bool → anyClient GenaiClient Other + error.

Local Abbreviation Generate :=
  (gemini.Generate GenerativeModelOf GenerateContent FinishReasonSafety
                   BlockReasonUnspecified BlockReasonString).

(** [return gemini.NewClient(context.Background(), ...)], the pointer
    becoming a [Client]. *)
Definition geminiNewClient (apiKey model : string) (debugMode : bool)
    : anyClient GenaiClient Other + error :=
  match gemini.NewClient genaiNewClient None apiKey model debugMode with
  | inl c => inl (GeminiClient c)
  | inr err => inr err
  end.

(** X15.  For the provider gemini the factory answers a Gemini client
    only: one that holds the SDK client made for the configured API key,
    and whose model is the configured one or, none being configured,
    gemma-3-27b-it, so never the empty name; [Generate] on it never fails
    for want of initialisation.  And [gemini.NewClient]'s own test of the
    API key never fires, the factory having tested the key before. *)
Theorem factory_makes_a_ready_gemini_client cfg debugMode :
  DefaultProvider cfg = "gemini" →
  GetClient geminiNewClient ollamaNewClient groqNewClient cfg debugMode
  ≠ inr (errorString "Gemini API key is required")
  ∧ ∀ client,
      GetClient geminiNewClient ollamaNewClient groqNewClient cfg debugMode
      = inl client →
      ∃ llmCfg g,
        LLMs cfg !! "gemini" = Some llmCfg
        ∧ APIKey llmCfg ≠ ""
        ∧ genaiNewClient None (APIKey llmCfg) = inl g
        ∧ client = GeminiClient
                     (gemini.mkClient (Some g)
                        (if String.eqb (Model llmCfg) "" then "gemma-3-27b-it"
                         else Model llmCfg))
        ∧ (∀ c, client = GeminiClient c →
             gemini.modelName c ≠ ""
             ∧ ∀ ctx prompt,
                 snd (Generate c ctx prompt)
                 ≠ Some (errorString "Gemini client not initialized")).
Proof.
  intros Hp. unfold GetClient, geminiNewClient, gemini.NewClient.
  rewrite Hp. simpl.
  destruct (LLMs cfg !! "gemini") as [llmCfg|]; [|done].
  destruct (String.eqb_spec (APIKey llmCfg) "") as [|Hkey]; [done|].
  destruct (genaiNewClient None (APIKey llmCfg)) as [g|err] eqn:Hg; [|done].
  split; [done|]. intros client [= <-]. exists llmCfg, g.
  split_and!; try done. intros c [= <-]. simpl. split.
  - destruct (String.eqb_spec (Model llmCfg) ""); done.
  - intros ctx prompt. unfold gemini.Generate. simpl.
    repeat case_match; simpl; done.
Qed.

End GeminiFactory.

Section GeminiBatch.

Context {Config GenaiClient GenerativeModel : Type}.
Variable GetClient : Z → Config → bool → gemini.Client GenaiClient + error.
Variable GenerativeModelOf : GenaiClient → string → option GenerativeModel.
Variable GenerateContent :
  GenerativeModel → option error → string
  → gemini.GenerateContentResponse + error.
Variable FinishReasonSafety BlockReasonUnspecified : Z.
Variable BlockReasonString : Z → string.

Local Abbreviation Generate :=
  (gemini.Generate GenerativeModelOf GenerateContent FinishReasonSafety
                   BlockReasonUnspecified BlockReasonString).

(** X16.  When the workers' clients are Gemini clients, a result of a run
    over a non-empty job list has an empty response exactly when it has
    an error: no job is reported as done with nothing to show, and no
    failed job carries a text. *)
Theorem gemini_batch_has_text_or_error bp0 ctx now jobs evs s :
  jobs ≠ [] →
  run GetClient Generate evs (ProcessJobs bp0 ctx now jobs) = Some s →
  Forall (λ r, ResultError r = None ↔ Response r ≠ "")
         (results s ++ buf (resultChan s)).
Proof.
  intros Hne Hrun.
  destruct (ProcessJobs_reaches_Provenance _ _ _ _ _ _ _ _ Hne Hrun)
    as [_ Hres].
  apply Forall_forall. intros r Hr. rewrite Forall_forall in Hres.
  destruct (Hres r) as (i & _ & _ & Hfrom).
  { apply elem_of_app. apply elem_of_app in Hr. tauto. }
  destruct (GetClient _ _ _) as [client|err].
  - destruct Hfrom as (ce' & _ & Hgen).
    destruct (Generate_cases GenerativeModelOf GenerateContent
                FinishReasonSafety BlockReasonUnspecified BlockReasonString
                client ce' (Prompt (Job r)))
      as [[err Hg]|(g & model & resp & cand & rest & content & _ & _ & _ & _ & _
                    & Hne' & Hg)];
      rewrite Hg in Hgen; injection Hgen as Hresp Herr;
      rewrite Hresp, Herr; done.
  - rewrite Hfrom. done.
Qed.

End GeminiBatch.

(** An SDK that echoes: its client is the API key, its model the model
    name, and its response one candidate with the prompt between two
    parts, one of them no text. *)
Definition echoNewClient (ctx : option error) (apiKey : string)
    : string + error := inl apiKey.

Definition echoModel (g : string) (name : string) : option string := Some name.

Definition echoContent (model : string) (ctx : option error) (prompt : string)
    : gemini.GenerateContentResponse + error :=
  inl (gemini.mkResponse
         [gemini.mkCandidate
            (Some (gemini.mkContent
                     [gemini.Text "echo: "; gemini.NonText; gemini.Text prompt]))
            1]
         None).

Definition echoOther (credential model : string) (timeout : Z) (debugMode : bool)
    : anyClient string unit + error := inl (OtherClient ()).

Lemma factory_makes_a_ready_gemini_client_witness :
  GetClient (geminiNewClient echoNewClient) echoOther echoOther
            (gemini_cfg 30) true
  ≠ inr (errorString "Gemini API key is required").
Proof.
  refine (proj1 (factory_makes_a_ready_gemini_client echoNewClient echoModel
                   echoContent 3 0 (λ _, "SAFETY") echoOther echoOther
                   (gemini_cfg 30) true _)).
  reflexivity.
Defined.

(** One worker with an echoing Gemini client answers the three jobs. *)
Definition echoGetClient (workerID : Z) (cfg : string) (debugMode : bool)
    : gemini.Client string + error := inl (gemini.mkClient (Some "sdk") cfg).

Definition echoGenerate :
    gemini.Client string → option error → string → string * option error :=
  gemini.Generate echoModel echoContent 3 0 (λ _, "SAFETY").

Definition echo_start : @Run string (gemini.Client string) :=
  ProcessJobs solo_bp None 0 demo_jobs.

Definition echo_final : @Run string (gemini.Client string) :=
  Eval vm_compute in
    default echo_start (run echoGetClient echoGenerate solo_schedule echo_start).

Example echo_run :
  run echoGetClient echoGenerate solo_schedule echo_start = Some echo_final
  ∧ (Response <$> results echo_final)
    = ["echo: Success"; "echo: error"; "echo: Another success"].
Proof. vm_compute. done. Qed.

Lemma gemini_batch_has_text_or_error_witness :
  Forall (λ r, ResultError r = None ↔ Response r ≠ "")
         (results echo_final ++ buf (resultChan echo_final)).
Proof.
  refine (gemini_batch_has_text_or_error echoGetClient echoModel echoContent
            3 0 (λ _, "SAFETY") solo_bp None 0 demo_jobs solo_schedule
            echo_final demo_jobs_nonempty _).
  vm_compute. reflexivity.
Defined.

(** * The report and the results file (main.go, lines 264-366) *)

(** [strings.ReplaceAll(s, old, new)] for an [old] of one byte, which is
    how the report and the results file use it. *)
Fixpoint ReplaceAll (s : string) (old : ascii) (new : string) : string :=
  match s with
  | EmptyString => EmptyString
  | String c s' =>
      if Ascii.eqb c old then new +:+ ReplaceAll s' old new
      else String c (ReplaceAll s' old new)
  end.

Definition newline : ascii := ascii_of_nat 10.
Definition quote : ascii := ascii_of_nat 34.

(** The response as [generateReport] shows it (lines 314-318): cut to 97
    bytes and three dots when longer than 100 bytes, line feeds replaced
    by spaces. *)
Definition shownResponse (response : string) : string :=
  let response :=
    if bool_decide (100 < String.length response)%nat
    then String.substring 0 97 response +:+ "..."
    else response in
  ReplaceAll response newline " ".

(** The text [saveResultsToFile] puts between quotes (lines 342-350):
    every double quote gets a backslash before it. *)
Definition escaped (s : string) : string :=
  ReplaceAll s quote (String "\" (String quote EmptyString)).

Lemma string_length_app (a b : string) :
  String.length (a +:+ b) = (String.length a + String.length b)%nat.
Proof.
  induction a as [|x a IH]; [done|].
  rewrite string_app_cons. simpl. by rewrite IH.
Qed.

Lemma substring_length (n : nat) (s : string) :
  String.length (String.substring 0 n s) = (n `min` String.length s)%nat.
Proof.
  revert s. induction n as [|n IH]; intros [|c s]; simpl; try done.
  by rewrite IH.
Qed.

Lemma ReplaceAll_byte_length s old c :
  String.length (ReplaceAll s old (String c EmptyString)) = String.length s.
Proof.
  induction s as [|x s IH]; simpl; [done|].
  destruct (Ascii.eqb x old); [rewrite string_length_app|]; simpl; by rewrite IH.
Qed.

Lemma ReplaceAll_byte_get s old c i :
  c ≠ old → String.get i (ReplaceAll s old (String c EmptyString)) ≠ Some old.
Proof.
  intros Hc. revert i. induction s as [|x s IH]; intros i; simpl; [done|].
  destruct (Ascii.eqb_spec x old) as [->|Hx].
  - rewrite string_app_cons. destruct i as [|i]; simpl; [congruence|apply IH].
  - destruct i as [|i]; simpl; [congruence|apply IH].
Qed.

Lemma ReplaceAll_app a b old new :
  ReplaceAll (a +:+ b) old new = ReplaceAll a old new +:+ ReplaceAll b old new.
Proof.
  induction a as [|x a IH]; [done|].
  rewrite string_app_cons. simpl. rewrite IH.
  destruct (Ascii.eqb x old); [by rewrite string_app_assoc|done].
Qed.

(** X17.  The response a report shows for a job is at most 100 bytes
    long and contains no line feed, so it stays on its line; a response of
    at most 100 bytes keeps its length (only its line feeds change, into
    spaces), a longer one is shown as its first 97 bytes, treated alike,
    and three dots, 100 bytes in all. *)
Theorem shown_response_fits_its_line response :
  (String.length (shownResponse response) ≤ 100)%nat
  ∧ (∀ i, String.get i (shownResponse response) ≠ Some newline)
  ∧ ((String.length response ≤ 100)%nat →
     shownResponse response = ReplaceAll response newline " "
     ∧ String.length (shownResponse response) = String.length response)
  ∧ ((100 < String.length response)%nat →
     shownResponse response
     = ReplaceAll (String.substring 0 97 response) newline " " +:+ "..."
     ∧ String.length (shownResponse response) = 100%nat).
Proof.
  unfold shownResponse. split_and!.
  - rewrite ReplaceAll_byte_length. case_bool_decide; [|lia].
    rewrite string_length_app, substring_length.
    change (String.length "...") with 3%nat. lia.
  - intros i. by apply ReplaceAll_byte_get.
  - intros Hle. rewrite bool_decide_false by lia.
    split; [done|apply ReplaceAll_byte_length].
  - intros Hgt. rewrite bool_decide_true by done.
    split; [by rewrite ReplaceAll_app|].
    rewrite ReplaceAll_byte_length, string_length_app, substring_length.
    change (String.length "...") with 3%nat. lia.
Qed.

Lemma escaped_cons c s :
  escaped (String c s)
  = if Ascii.eqb c quote then String "\" (String quote (escaped s))
    else String c (escaped s).
Proof. unfold escaped. simpl. by destruct (Ascii.eqb c quote). Qed.

Lemma escaped_head s : String.get 0 (escaped s) ≠ Some quote.
Proof.
  destruct s as [|c s]; [done|]. rewrite escaped_cons.
  destruct (Ascii.eqb_spec c quote); simpl; [done|congruence].
Qed.

Lemma escaped_inj s1 s2 : escaped s1 = escaped s2 → s1 = s2.
Proof.
  revert s2. induction s1 as [|c1 s1 IH]; intros [|c2 s2].
  - done.
  - rewrite escaped_cons. change (escaped EmptyString) with EmptyString.
    by destruct (Ascii.eqb c2 quote).
  - rewrite escaped_cons. change (escaped EmptyString) with EmptyString.
    by destruct (Ascii.eqb c1 quote).
  - rewrite !escaped_cons.
    destruct (Ascii.eqb_spec c1 quote) as [->|H1],
             (Ascii.eqb_spec c2 quote) as [->|H2]; intros Heq.
    + injection Heq as Heq. by rewrite (IH _ Heq).
    + injection Heq as <- Heq. destruct (escaped_head s2). by rewrite <-Heq.
    + injection Heq as -> Heq. destruct (escaped_head s1). by rewrite Heq.
    + injection Heq as -> Heq. by rewrite (IH _ Heq).
Qed.

Lemma escaped_quotes s i :
  String.get (S i) (escaped s) = Some quote →
  String.get i (escaped s) = Some "\"%char.
Proof.
  revert i. induction s as [|c s IH]; intros i; [done|].
  rewrite escaped_cons. destruct (Ascii.eqb_spec c quote) as [->|Hc].
  - destruct i as [|[|i]]; simpl; [done| |apply IH].
    intros H. by destruct (escaped_head s).
  - destruct i as [|i]; simpl; [|apply IH].
    intros H. by destruct (escaped_head s).
Qed.

(** X18.  What [saveResultsToFile] writes for a prompt, a response or an
    error text determines it: two texts that differ are written
    differently.  In what is written no double quote comes first and every
    double quote has a backslash before it; a text without double quotes
    is written as it is (its backslashes and line feeds included). *)
Theorem escaping_keeps_the_text s :
  (∀ s', escaped s = escaped s' ↔ s = s')
  ∧ String.get 0 (escaped s) ≠ Some quote
  ∧ (∀ i, String.get (S i) (escaped s) = Some quote →
          String.get i (escaped s) = Some "\"%char)
  ∧ ((∀ i, String.get i s ≠ Some quote) → escaped s = s).
Proof.
  split_and!.
  - intros s'. split; [apply escaped_inj|by intros ->].
  - apply escaped_head.
  - apply escaped_quotes.
  - induction s as [|c s IH]; intros Hq; [done|].
    rewrite escaped_cons. destruct (Ascii.eqb_spec c quote) as [->|Hc].
    + by destruct (Hq 0%nat).
    + rewrite IH; [done|]. intros i. apply (Hq (S i)).
Qed.

Example escaped_example :
  escaped (String "a" (String quote (String "\" (String quote "b"))))
  = String "a" (String "\" (String quote (String "\" (String "\" (String quote "b"))))).
Proof. vm_compute. reflexivity. Qed.
